(** * Celestial transit data: the astronomical computation engine

    A shallow embedding of the two edge functions of the repository
    (the natal-chart function, which also carries the moon-phase solver and
    the transit scan, and the stand-alone transits function) together with
    the properties their specification states about them.

    Numbers.  A JavaScript [number] is embedded as a rational [Q]: every
    finite double is a rational, and the arithmetic of the source is taken
    exactly (the rounding of IEEE-754 operations is not modelled).  Decimal
    literals of the source are written as they are ([365.25], [30.6001]).
    The trigonometric part of the chart geometry leaves the rationals and
    is embedded over [R] in the module [Chart]. *)

From Stdlib Require Import ZArith QArith Qround Qabs Lia List String Bool.
From Stdlib Require Import DecimalString Reals Psatz.
From Stdlib Require Import Sorted Permutation Qreals.
Import ListNotations.
Local Open Scope string_scope.
Local Open Scope Q_scope.

(** Whole numbers are numbers. *)
#[local] Coercion inject_Z : Z >-> Q.

(** ** JavaScript arithmetic on exact numbers *)

Module JS.

(** [x < y] and [x <= y] as the tests of the source. *)
Definition ltb (x y : Q) : bool :=
  match x ?= y with Lt => true | _ => false end.

Definition leb (x y : Q) : bool := Qle_bool x y.

(** [Math.floor]. *)
Definition floor (x : Q) : Z := Qfloor x.

(** [Math.round]: nearest integer, a tie goes up. *)
Definition round (x : Q) : Z := Qfloor (x + 0.5).

(** [Math.abs]. *)
Definition abs (x : Q) : Q := Qabs x.

(** Truncation toward zero, the quotient behind [%]. *)
Definition trunc (x : Q) : Z :=
  if Qle_bool 0 x then Qfloor x else Qceiling x.

(** [a % b]: the remainder takes the sign of the dividend. *)
Definition rem (a b : Q) : Q := a - b * inject_Z (trunc (a / b)).

(** [l[i]]: [undefined] (here [None]) outside the array. *)
Definition index {A : Type} (l : list A) (i : Z) : option A :=
  if (i <? 0)%Z then None else nth_error l (Z.to_nat i).

(** [String(n)] for a whole number. *)
Definition String_of (n : Z) : string := NilEmpty.string_of_int (Z.to_int n).

Fixpoint repeat_string (n : nat) (pad : string) : string :=
  match n with
  | O => EmptyString
  | S n' => pad ++ repeat_string n' pad
  end.

(** [s.padStart(n, pad)] for a one-character [pad]. *)
Definition padStart (n : nat) (pad : string) (s : string) : string :=
  repeat_string (n - String.length s) pad ++ s.

(** The indices [0], [1], ..., [n - 1] of a counting loop. *)
Definition upto (n : nat) : list Z := map Z.of_nat (seq 0 n).

(** Truthiness of a nullable number: [null] and [0] are falsy. *)
Definition truthy (x : option Q) : bool :=
  match x with
  | Some v => negb (Qeq_bool v 0)
  | None => false
  end.

End JS.

(** ** Angle arithmetic shared by both functions *)

(** [function norm(a) { a = a % 360; return a < 0 ? a + 360 : a; }] *)
Definition norm (a : Q) : Q :=
  let a := JS.rem a 360 in
  if JS.ltb a 0 then a + 360 else a.

(** ** Definitions shared by both functions *)

Definition ZODIAC : list string :=
  ["Aries"; "Taurus"; "Gemini"; "Cancer"; "Leo"; "Virgo"; "Libra";
   "Scorpio"; "Sagittarius"; "Capricorn"; "Aquarius"; "Pisces"].

Record Planet := { name : string; motion : Q; j2000 : Q }.

Definition J2000 : Q := 2451545.0.

(** Lookup in an object literal used as a table; the entries keep the order
    in which the source lists them. *)
Fixpoint lookup {A : Type} (k : string) (table : list (string * A)) : option A :=
  match table with
  | [] => None
  | (k', v) :: rest => if String.eqb k k' then Some v else lookup k rest
  end.

(** The calendar date computed by [fromJD], before it is printed. *)
Definition fromJD_ymd (jd : Q) : Z * Z * Z :=
  let Z0 := JS.floor (jd + 0.5) in
  let alpha := JS.floor ((Z0 - 1867216.25) / 36524.25) in
  let A := if (Z0 <? 2299161)%Z then Z0
           else (Z0 + 1 + alpha - JS.floor (alpha / 4))%Z in
  let B := (A + 1524)%Z in
  let C := JS.floor ((B - 122.1) / 365.25) in
  let D := JS.floor (365.25 * C) in
  let E := JS.floor ((B - D)%Z / 30.6001) in
  let day := JS.floor (inject_Z (B - D - JS.floor (30.6001 * E))) in
  let month := if (E <? 14)%Z then (E - 1)%Z else (E - 13)%Z in
  let year := if (2 <? month)%Z then (C - 4716)%Z else (C - 4715)%Z in
  (year, month, day).

(** [fromJD]: the date as [YYYY-MM-DD]. *)
Definition fromJD (jd : Q) : string :=
  let '(year, month, day) := fromJD_ymd jd in
  JS.String_of year ++ "-" ++ JS.padStart 2 "0" (JS.String_of month)
    ++ "-" ++ JS.padStart 2 "0" (JS.String_of day).

(** [for (let jd = s; jd < e; jd += st) body]: the loop over Julian days,
    threading the variables the body updates.  [fuel] bounds the number of
    rounds; [rounds] below gives the number the loop makes. *)
Fixpoint for_jd {S : Type} (fuel : nat) (e st : Q) (body : Q -> S -> S)
    (jd : Q) (acc : S) : S :=
  match fuel with
  | O => acc
  | Datatypes.S fuel' =>
      if JS.ltb jd e then for_jd fuel' e st body (jd + st) (body jd acc)
      else acc
  end.

(** The number of rounds of the loop from [s] up to [e] by steps of [st]. *)
Definition rounds (s e st : Q) : nat := Z.to_nat (Qceiling ((e - s) / st)).

(** The Julian days the loop visits, in order. *)
Fixpoint visited (fuel : nat) (e st jd : Q) : list Q :=
  match fuel with
  | O => []
  | Datatypes.S fuel' =>
      if JS.ltb jd e then jd :: visited fuel' e st (jd + st) else []
  end.

(** The direction of motion between two samples. *)
Inductive Direction := direct | retrograde.

Definition Direction_eqb (a b : Direction) : bool :=
  match a, b with
  | direct, direct | retrograde, retrograde => true
  | _, _ => false
  end.

(** [let m = l - pL; if (m > 180) m -= 360; if (m < -180) m += 360;] *)
Definition unwrap (l pL : Q) : Q :=
  let m := l - pL in
  let m := if JS.ltb 180 m then m - 360 else m in
  if JS.ltb m (-180) then m + 360 else m.

(** [m > 0 ? "direct" : "retrograde"] *)
Definition classify (m : Q) : Direction :=
  if JS.ltb 0 m then direct else retrograde.

(** An event of the retrograde scan.  [type] is the tag of the source
    ([retrograde_start] and [retrograde_end], or [retro_start] and
    [retro_end] in the transits function); [duration_days] is present on
    end events only. *)
Record TransitEvent := {
  type : string;
  body : string;
  date : string;
  ev_sign : option string;
  ev_degree : Q;
  duration_days : option Z;
  jd : Q
}.

(** The variables of the scan of one body, and the event array [r]. *)
Record RetroState := {
  pL : option Q;
  pD : option Direction;
  sJd : option Q;
  r : list TransitEvent
}.

(** [r.sort((a, b) => a.jd - b.jd)]: a stable sort on the [jd] field. *)
Fixpoint insert_by_jd (x : TransitEvent) (l : list TransitEvent) : list TransitEvent :=
  match l with
  | [] => [x]
  | y :: l' => if JS.leb (jd x) (jd y) then x :: y :: l'
               else y :: insert_by_jd x l'
  end.

Fixpoint sort_by_jd (l : list TransitEvent) : list TransitEvent :=
  match l with
  | [] => []
  | x :: l' => insert_by_jd x (sort_by_jd l')
  end.

(** ** The retrograde scan

    [calcRetrogrades] of the natal-chart function and [retrogrades] of the
    transits function are the same loop up to the tags of the events, the
    table of planets and the precision of the degree.  The loop is written
    once over these. *)

Section RetrogradeScan.

(** The tags of the two kinds of event. *)
Variables start_tag end_tag : string.
(** [PLANETS[k].name]. *)
Variable planet_name : string -> string.
(** The sign and the degree in the sign of a longitude. *)
Variable sign_of : Q -> option string * Q.

(** The body of the loop at the sample [jd]; [lonf] is the longitude of
    the body scanned ([lon(k, .)] in the source). *)
Definition retro_step (k : string) (lonf : Q -> Q) (jd : Q) (s : RetroState)
    : RetroState :=
  let l := lonf jd in
  match pL s with
  | Some pl =>
      let m := unwrap l pl in
      let d := classify m in
      let s' :=
        match pD s with
        | Some pd =>
            if negb (Direction_eqb d pd) then
              let '(sg, deg) := sign_of l in
              match d with
              | retrograde =>
                  {| pL := pL s; pD := pD s; sJd := Some jd;
                     r := r s ++
                       [{| type := start_tag;
                           body := planet_name k;
                           date := fromJD jd;
                           ev_sign := sg;
                           ev_degree := deg;
                           duration_days := None;
                           jd := JS.round (jd * 100) / 100 |}] |}
              | direct =>
                  match sJd s with
                  | Some sjd =>
                      if JS.truthy (sJd s) then
                        {| pL := pL s; pD := pD s; sJd := None;
                           r := r s ++
                             [{| type := end_tag;
                                 body := planet_name k;
                                 date := fromJD jd;
                                 ev_sign := sg;
                                 ev_degree := deg;
                                 duration_days := Some (JS.round (jd - sjd));
                                 jd := JS.round (jd * 100) / 100 |}] |}
                      else s
                  | None => s
                  end
              end
            else s
        | None => s
        end in
      {| pL := Some l; pD := Some d; sJd := sJd s'; r := r s' |}
  | None =>
      {| pL := Some l; pD := pD s; sJd := sJd s; r := r s |}
  end.

(** The sampling step of a body: [k === "mercury" || k === "venus" ? 0.5 : 1]. *)
Definition retro_st (k : string) : Q :=
  if String.eqb k "mercury" || String.eqb k "venus" then 0.5 else 1.

(** The scan of the body [k] between [s] and [e], appending to [r0]. *)
Definition scan_body (lonf : string -> Q -> Q) (s e : Q)
    (r0 : list TransitEvent) (k : string) : list TransitEvent :=
  let st := retro_st k in
  r (for_jd (rounds s e st) e st (retro_step k (lonf k)) s
       {| pL := None; pD := None; sJd := None; r := r0 |}).

End RetrogradeScan.

(** ** Sorting by a numeric field

    [r.sort((a, b) => a.jd - b.jd)] on any kind of event: a stable
    insertion sort on the field [key]. *)

Section SortBy.

Variable A : Type.
Variable key : A -> Q.

Fixpoint insert_by (x : A) (l : list A) : list A :=
  match l with
  | [] => [x]
  | y :: l' => if JS.leb (key x) (key y) then x :: y :: l'
               else y :: insert_by x l'
  end.

Fixpoint sort_by (l : list A) : list A :=
  match l with
  | [] => []
  | x :: l' => insert_by x (sort_by l')
  end.

End SortBy.

Arguments insert_by {A} key x l.
Arguments sort_by {A} key l.

(** ** The ingress scan

    [calcIngresses] of the natal-chart function and [ingresses] of the
    transits function are the same loops over their own table of planets
    and table of steps. *)

Record IngressEvent := {
  in_body : string;
  from_sign : string;
  to_sign : option string;
  in_date : string;
  in_jd : Q
}.

(** [a !== b] on a sign that may be [undefined] and a string. *)
Definition sign_differs (sg : option string) (prev : string) : bool :=
  match sg with
  | Some s => negb (String.eqb s prev)
  | None => true
  end.

(** [steps[k] || 1] *)
Definition step_of (steps : list (string * Q)) (k : string) : Q :=
  match lookup k steps with
  | Some st => if Qeq_bool st 0 then 1 else st
  | None => 1
  end.

Section IngressScan.

(** [getSign(l).sign], or [sign(l).sign]. *)
Variable sign_name_of : Q -> option string.
(** [lon]. *)
Variable lonf : string -> Q -> Q.

(** The body of the inner loop at the sample [jd], on [prev] and [r]. *)
Definition ingress_step (k : string) (p : Planet) (jd : Q)
    (s : option string * list IngressEvent) : option string * list IngressEvent :=
  let '(prev, r) := s in
  let sg := sign_name_of (lonf k jd) in
  let r :=
    match prev with
    | Some pv =>
        if negb (String.eqb pv "") && sign_differs sg pv then
          (r ++ [{| in_body := name p;
                    from_sign := pv;
                    to_sign := sg;
                    in_date := fromJD jd;
                    in_jd := JS.round (jd * 100) / 100 |}])%list
        else r
    | None => r
    end in
  (sg, r).

(** The scan of one entry [(k, p)] of the table of planets. *)
Definition ingress_body (steps : list (string * Q)) (s e : Q)
    (r : list IngressEvent) (kp : string * Planet) : list IngressEvent :=
  let '(k, p) := kp in
  let st := step_of steps k in
  snd (for_jd (rounds s e st) e st (ingress_step k p) s (None, r)).

(** The scan of all entries, and the final sort. *)
Definition ingress_scan (planets : list (string * Planet))
    (steps : list (string * Q)) (s e : Q) : list IngressEvent :=
  sort_by in_jd (fold_left (ingress_body steps s e) planets []).

End IngressScan.

(** ** The aspect scan

    [calcTransitAspects] of the natal-chart function and [aspects] of the
    transits function are the same loops over their own tables. *)

Record AspectEvent (Pos : Type) := {
  asp_name : string;
  asp_symbol : string;
  body1 : string;
  body2 : string;
  pos1 : Pos;
  pos2 : Pos;
  asp_date : string;
  exactness : Q;
  asp_jd : Q
}.

Arguments asp_name {Pos} _.
Arguments asp_symbol {Pos} _.
Arguments body1 {Pos} _.
Arguments body2 {Pos} _.
Arguments pos1 {Pos} _.
Arguments pos2 {Pos} _.
Arguments asp_date {Pos} _.
Arguments exactness {Pos} _.
Arguments asp_jd {Pos} _.

(** The variables of the scan of one aspect of one pair of bodies, and the
    event array [r]. *)
Record AspectState (Pos : Type) := {
  io : bool;
  bJd : option Q;
  bD : Q;
  ar : list (AspectEvent Pos)
}.

Arguments io {Pos} _.
Arguments bJd {Pos} _.
Arguments bD {Pos} _.
Arguments ar {Pos} _.

(** [let sep = Math.abs(l1 - l2); if (sep > 180) sep = 360 - sep;
    const df = Math.abs(sep - a.angle);] at the sample [jd]. *)
Definition aspect_df (lon1 lon2 : Q -> Q) (angle jd : Q) : Q :=
  let sep := JS.abs (lon1 jd - lon2 jd) in
  let sep := if JS.ltb 180 sep then 360 - sep else sep in
  JS.abs (sep - angle).

(** The pairs [(l[i], l[j])] with [i < j], in the order of the two nested
    loops. *)
Fixpoint pairs {A : Type} (l : list A) : list (A * A) :=
  match l with
  | [] => []
  | x :: t => (map (fun y => (x, y)) t ++ pairs t)%list
  end.

(** [["conjunction", "opposition", "square"].includes(n)] *)
Definition hard_aspect (n : string) : bool :=
  String.eqb n "conjunction" || String.eqb n "opposition" || String.eqb n "square".

Section AspectScan.

(** The position record of an event, [getSign(l)] or [sign(l)]. *)
Variable Pos : Type.
Variable pos_of : Q -> Pos.
(** [lon] and [PLANETS[k].name]. *)
Variable lonf : string -> Q -> Q.
Variable planet_name : string -> string.

(** The event pushed when a run in orb ends. *)
Definition aspect_event (n sym name1 name2 k1 k2 : string) (bj bd : Q)
    : AspectEvent Pos :=
  {| asp_name := n;
     asp_symbol := sym;
     body1 := name1;
     body2 := name2;
     pos1 := pos_of (lonf k1 bj);
     pos2 := pos_of (lonf k2 bj);
     asp_date := fromJD bj;
     exactness := JS.round (bd * 100) / 100;
     asp_jd := JS.round (bj * 100) / 100 |}.

(** The body of the innermost loop at the sample [jd], for the aspect [n]
    of angle [angle], in orb within [corridor]. *)
Definition aspect_step (n sym name1 name2 k1 k2 : string) (angle corridor : Q)
    (jd : Q) (s : AspectState Pos) : AspectState Pos :=
  let df := aspect_df (lonf k1) (lonf k2) angle jd in
  if JS.leb df corridor then
    if JS.ltb df (bD s) then
      {| io := true; bJd := Some jd; bD := df; ar := ar s |}
    else
      {| io := true; bJd := bJd s; bD := bD s; ar := ar s |}
  else if io s && JS.truthy (bJd s) then
    match bJd s with
    | Some bj =>
        {| io := false; bJd := None; bD := 999;
           ar := ar s ++ [aspect_event n sym name1 name2 k1 k2 bj (bD s)] |}
    | None => s
    end
  else s.

(** The innermost loop, from [s] up to [e] by steps of [st]. *)
Definition aspect_loop (n sym name1 name2 k1 k2 : string) (angle corridor : Q)
    (s e st : Q) (r : list (AspectEvent Pos)) : list (AspectEvent Pos) :=
  ar (for_jd (rounds s e st) e st
        (aspect_step n sym name1 name2 k1 k2 angle corridor) s
        {| io := false; bJd := None; bD := 999; ar := r |}).

(** The aspects between the outer planets, one day apart, within the orb
    of each aspect. *)
Definition outer_aspects (outer : list string)
    (entries : list (string * (Q * Q * string))) (s e : Q)
    (r : list (AspectEvent Pos)) : list (AspectEvent Pos) :=
  fold_left
    (fun r (ij : string * string) =>
       fold_left
         (fun r (na : string * (Q * Q * string)) =>
            let '(n, (angle, orb, sym)) := na in
            aspect_loop n sym (planet_name (fst ij)) (planet_name (snd ij))
              (fst ij) (snd ij) angle orb s e 1 r)
         entries r)
    (pairs outer) r.

(** The hard aspects of the Sun to the outer planets, half a day apart,
    within 3 degrees. *)
Definition sun_aspects (outer : list string)
    (entries : list (string * (Q * Q * string))) (s e : Q)
    (r : list (AspectEvent Pos)) : list (AspectEvent Pos) :=
  fold_left
    (fun r (p : string) =>
       fold_left
         (fun r (na : string * (Q * Q * string)) =>
            let '(n, (angle, orb, sym)) := na in
            if negb (hard_aspect n) then r
            else aspect_loop n sym "Sun" (planet_name p) "sun" p angle 3 s e 0.5 r)
         entries r)
    outer r.

Definition aspect_scan (outer : list string)
    (entries : list (string * (Q * Q * string))) (s e : Q)
    : list (AspectEvent Pos) :=
  sort_by asp_jd (sun_aspects outer entries s e (outer_aspects outer entries s e [])).

End AspectScan.

(** ** The natal-chart function: natal chart, synastry, moon phases and
       transit scan *)

Module Natal.

Definition PLANETS : list (string * Planet) :=
  [("sun",     {| name := "Sun";     motion := 0.9856; j2000 := 280.46 |});
   ("moon",    {| name := "Moon";    motion := 13.176; j2000 := 218.32 |});
   ("mercury", {| name := "Mercury"; motion := 4.092;  j2000 := 252.25 |});
   ("venus",   {| name := "Venus";   motion := 1.602;  j2000 := 181.98 |});
   ("mars",    {| name := "Mars";    motion := 0.524;  j2000 := 355.45 |});
   ("jupiter", {| name := "Jupiter"; motion := 0.0831; j2000 := 34.40 |});
   ("saturn",  {| name := "Saturn";  motion := 0.0335; j2000 := 49.94 |});
   ("uranus",  {| name := "Uranus";  motion := 0.0117; j2000 := 313.23 |});
   ("neptune", {| name := "Neptune"; motion := 0.006;  j2000 := 304.88 |});
   ("pluto",   {| name := "Pluto";   motion := 0.004;  j2000 := 238.96 |})].

Record AspectDef := { angle : Q; orb : Q; symbol : string; nature : string }.

Definition ASPECTS : list (string * AspectDef) :=
  [("conjunction", {| angle := 0;   orb := 8; symbol := "☌"; nature := "major" |});
   ("sextile",     {| angle := 60;  orb := 4; symbol := "⚹"; nature := "harmonious" |});
   ("square",      {| angle := 90;  orb := 6; symbol := "□"; nature := "challenging" |});
   ("trine",       {| angle := 120; orb := 6; symbol := "△"; nature := "harmonious" |});
   ("opposition",  {| angle := 180; orb := 8; symbol := "☍"; nature := "challenging" |})].

(** [toJD(y, m, d, h = 0)] *)
Definition toJD (y m d h : Q) : Q :=
  let '(y, m) := if JS.leb m 2 then (y - 1, m + 12) else (y, m) in
  let A := JS.floor (y / 100) in
  let jd := JS.floor (365.25 * (y + 4716)) + JS.floor (30.6001 * (m + 1))
            + d + 2 - A + JS.floor (A / 4) - 1524.5 in
  jd + h / 24.

Record SignData := { sign : option string; degree : Q; signIndex : Z }.

Definition getSign (lon : Q) : SignData :=
  let n := norm lon in
  let signIndex := JS.floor (n / 30) in
  {| sign := JS.index ZODIAC signIndex;
     degree := JS.round (JS.rem n 30 * 100) / 100;
     signIndex := signIndex |}.

Definition lon (p : string) (jd : Q) : Q :=
  match lookup p PLANETS with
  | Some pl => norm (j2000 pl + motion pl * (jd - J2000))
  | None => 0
  end.

(** *** Aspects *)

Record Aspect := {
  aspect : string;
  a_symbol : string;
  a_nature : string;
  a_orb : Q;
  exact : bool
}.

(** The loop of [findAspect] over [Object.entries(ASPECTS)]: the first
    entry within its orb is returned. *)
Fixpoint findAspect_loop (entries : list (string * AspectDef)) (sep : Q)
    : option Aspect :=
  match entries with
  | [] => None
  | (name, data) :: rest =>
      let diff := JS.abs (sep - angle data) in
      if JS.leb diff (orb data) then
        Some {| aspect := name;
                a_symbol := symbol data;
                a_nature := nature data;
                a_orb := JS.round (diff * 100) / 100;
                exact := JS.ltb diff 1 |}
      else findAspect_loop rest sep
  end.

Definition findAspect (lon1 lon2 : Q) : option Aspect :=
  let sep := JS.abs (lon1 - lon2) in
  let sep := if JS.ltb 180 sep then 360 - sep else sep in
  findAspect_loop ASPECTS sep.

(** *** Synastry *)

(** A planet of a natal chart, and the part of a chart that the synastry
    reads. *)
Record ChartPlanet := {
  cp_name : string;
  cp_longitude : Q;
  cp_sign : option string;
  cp_degree : Q;
  cp_house : Z
}.

Record NatalChart := {
  input_name : option string;
  ascendant_longitude : Q;
  planets : list ChartPlanet
}.

Record CrossAspect := {
  person1_planet : string;
  person2_planet : string;
  cross : Aspect
}.

Record SynastrySummary := {
  total_aspects : nat;
  harmonious_aspects : nat;
  challenging_aspects : nat;
  conjunctions : nat;
  compatibility_index : Z
}.

(** The nested loops of [calculateSynastry] that collect the aspects
    between the planets of the two charts. *)
Definition crossAspects (chart1 chart2 : NatalChart) : list CrossAspect :=
  flat_map (fun p1 =>
    flat_map (fun p2 =>
      match findAspect (cp_longitude p1) (cp_longitude p2) with
      | Some a => [{| person1_planet := cp_name p1;
                      person2_planet := cp_name p2;
                      cross := a |}]
      | None => []
      end) (planets chart2)) (planets chart1).

(** [n || 1] *)
Definition or_one (n : nat) : nat := match n with O => 1%nat | _ => n end.

(** The summary of [calculateSynastry]; the house overlays and the
    interpretation texts do not enter it. *)
Definition synastry_summary (crossAspects : list CrossAspect) : SynastrySummary :=
  let harmoniousCount :=
    List.length (filter (fun a => String.eqb (a_nature (cross a)) "harmonious") crossAspects) in
  let challengingCount :=
    List.length (filter (fun a => String.eqb (a_nature (cross a)) "challenging") crossAspects) in
  let majorConjunctions :=
    List.length (filter (fun a => String.eqb (aspect (cross a)) "conjunction") crossAspects) in
  {| total_aspects := List.length crossAspects;
     harmonious_aspects := harmoniousCount;
     challenging_aspects := challengingCount;
     conjunctions := majorConjunctions;
     compatibility_index :=
       JS.round ((Z.of_nat harmoniousCount + Z.of_nat majorConjunctions * 0.5)
                 / Z.of_nat (or_one (List.length crossAspects)) * 100) |}.

Definition calculateSynastry (chart1 chart2 : NatalChart) : SynastrySummary :=
  synastry_summary (crossAspects chart1 chart2).

(** *** Moon phases *)

Definition getSunMoonAngle (jd : Q) : Q :=
  let sunLon := lon "sun" jd in
  let moonLon := lon "moon" jd in
  norm (moonLon - sunLon).

Definition detectPhaseCrossing (prevAngle currAngle targetAngle : Q) : bool :=
  if Qeq_bool targetAngle 0 then
    JS.ltb 270 prevAngle && JS.ltb currAngle 90
  else
    JS.ltb prevAngle targetAngle && JS.leb targetAngle currAngle.

Definition tolerance : Q := 0.01.

(** The error of the bisection for the elongation [angle]: the elongation,
    taken negative above 180 for the new moon, less the target. *)
Definition phase_error_of (angle targetAngle : Q) : Q :=
  let angle := if Qeq_bool targetAngle 0 && JS.ltb 180 angle
               then angle - 360 else angle in
  angle - targetAngle.

(** The error of the bisection at [mid]. *)
Definition phase_error (mid targetAngle : Q) : Q :=
  phase_error_of (getSunMoonAngle mid) targetAngle.

(** The loop of [findExactPhaseTime] with [n] rounds left, [i] rounds
    made.  The result comes with the number of rounds made when it is
    returned. *)
Fixpoint bisect (n i : nat) (lo hi targetAngle : Q) : Q * nat :=
  match n with
  | O => ((lo + hi) / 2, i)
  | Datatypes.S n' =>
      let mid := (lo + hi) / 2 in
      let error := phase_error mid targetAngle in
      if JS.ltb (JS.abs error) tolerance then (mid, Datatypes.S i)
      else if JS.ltb 0 error then bisect n' (Datatypes.S i) lo mid targetAngle
      else bisect n' (Datatypes.S i) mid hi targetAngle
  end.

Definition findExactPhaseTime_rounds (startJd endJd targetAngle : Q) : Q * nat :=
  bisect 50 0 startJd endJd targetAngle.

Definition findExactPhaseTime (startJd endJd targetAngle : Q) : Q :=
  fst (findExactPhaseTime_rounds startJd endJd targetAngle).

Definition MOON_PHASE_ANGLES : list (string * Q) :=
  [("new", 0); ("first_quarter", 90); ("full", 180); ("last_quarter", 270)].

(** *** Retrograde scan *)

(** [PLANETS[k].name] for a key of the table. *)
Definition planet_name (k : string) : string :=
  match lookup k PLANETS with
  | Some pl => name pl
  | None => "undefined"
  end.

(** [const { sign: sg, degree: deg } = getSign(l)] *)
Definition sign_of (l : Q) : option string * Q :=
  let sd := getSign l in (sign sd, degree sd).

(** The scan of one body in [calcRetrogrades], between [s] and [e],
    appending to [r0]; positions are read through [lonf]. *)
Definition retro_scan (lonf : string -> Q -> Q) (s e : Q)
    (r0 : list TransitEvent) (k : string) : list TransitEvent :=
  scan_body "retrograde_start" "retrograde_end" planet_name sign_of lonf s e r0 k.

Definition retro_bodies : list string :=
  ["mercury"; "venus"; "mars"; "jupiter"; "saturn"; "uranus"; "neptune"; "pluto"].

(** [calcRetrogrades] over a position function. *)
Definition calcRetrogrades_over (lonf : string -> Q -> Q) (year : Z)
    : list TransitEvent :=
  let s := toJD year 1 1 0 in
  let e := toJD (year + 1)%Z 1 1 0 in
  sort_by_jd (fold_left (retro_scan lonf s e) retro_bodies []).

(** [calcRetrogrades(year)]: the scan over the positions of [lon]. *)
Definition calcRetrogrades (year : Z) : list TransitEvent :=
  calcRetrogrades_over lon year.

(** *** Houses *)

Definition HOUSE_MEANINGS : list string :=
  ["Self, identity, appearance";
   "Values, possessions, resources";
   "Communication, siblings, local travel";
   "Home, family, roots";
   "Creativity, romance, children";
   "Health, work, service";
   "Partnerships, marriage, contracts";
   "Transformation, shared resources, death";
   "Philosophy, travel, higher education";
   "Career, public image, authority";
   "Friends, groups, aspirations";
   "Spirituality, unconscious, endings"].

Record House := {
  house : Z;
  house_sign : option string;
  cusp : Z;
  meaning : option string
}.

(** [calcWholeSIgnHouses]: the loop [for (let i = 0; i < 12; i++)] pushes
    one house per round. *)
Definition calcWholeSIgnHouses (ascendant : Q) : list House :=
  let ascSign := getSign ascendant in
  map (fun i : Z =>
         let signIndex := Z.rem (signIndex ascSign + i) 12 in
         let cusp := (signIndex * 30)%Z in
         {| house := (i + 1)%Z;
            house_sign := JS.index ZODIAC signIndex;
            cusp := cusp;
            meaning := JS.index HOUSE_MEANINGS i |})
      (JS.upto 12).

Definition getHouse (planetLon ascendant : Q) : Z :=
  let ascSign := getSign ascendant in
  let planetSign := getSign planetLon in
  let house := (Z.rem (signIndex planetSign - signIndex ascSign + 12) 12 + 1)%Z in
  house.

(** *** House overlays of the synastry *)

Record Overlay := {
  ov_planet : string;
  in_house : Z;
  ov_meaning : string
}.

(** [name || fallback] *)
Definition name_or (n : option string) (fallback : string) : string :=
  match n with
  | Some s => if String.eqb s "" then fallback else s
  | None => fallback
  end.

(** An array element inside a template literal. *)
Definition shown (s : option string) : string :=
  match s with
  | Some s => s
  | None => "undefined"
  end.

(** [other.planets.map(p => ...)]: the planets of [other] in the houses of
    [owner], who is called [fallback] when the chart has no name. *)
Definition houseOverlays (owner other : NatalChart) (fallback : string)
    : list Overlay :=
  map (fun p =>
         {| ov_planet := cp_name p;
            in_house := getHouse (cp_longitude p) (ascendant_longitude owner);
            ov_meaning :=
              cp_name p ++ " activates " ++ name_or (input_name owner) fallback
                ++ "'s house of "
                ++ shown (JS.index HOUSE_MEANINGS
                            (getHouse (cp_longitude p) (ascendant_longitude owner) - 1)) |})
      (planets other).

(** [person2_in_person1_houses] and [person1_in_person2_houses]. *)
Definition houseOverlays1 (chart1 chart2 : NatalChart) : list Overlay :=
  houseOverlays chart1 chart2 "Person 1".

Definition houseOverlays2 (chart1 chart2 : NatalChart) : list Overlay :=
  houseOverlays chart2 chart1 "Person 2".

(** *** Ingress scan *)

Definition ingress_steps : list (string * Q) :=
  [("moon", 0.5); ("sun", 1); ("mercury", 0.5); ("venus", 0.5); ("mars", 1);
   ("jupiter", 2); ("saturn", 3); ("uranus", 5); ("neptune", 7); ("pluto", 10)].

Definition calcIngresses (year : Z) : list IngressEvent :=
  let s := toJD year 1 1 0 in
  let e := toJD (year + 1)%Z 1 1 0 in
  ingress_scan (fun l => sign (getSign l)) lon PLANETS ingress_steps s e.

(** *** Aspect scan *)

(** [Object.entries(ASPECTS)] with the fields the scan reads. *)
Definition aspect_entries : list (string * (Q * Q * string)) :=
  map (fun na => (fst na, (angle (snd na), orb (snd na), symbol (snd na)))) ASPECTS.

Definition outer : list string :=
  ["jupiter"; "saturn"; "uranus"; "neptune"; "pluto"].

Definition calcTransitAspects (year : Z) : list (AspectEvent SignData) :=
  let s := toJD year 1 1 0 in
  let e := toJD (year + 1)%Z 1 1 0 in
  aspect_scan SignData getSign lon planet_name outer aspect_entries s e.

(** *** The moon phases of a year *)

Record MoonPhase := {
  phase : string;
  mp_name : option string;
  emoji : option string;
  mp_date : string;
  mp_jd : Q;
  sun_longitude : Q;
  moon_longitude : Q;
  sun_sign : option string;
  moon_sign : option string;
  sun_degree : Q;
  moon_degree : Q;
  exactness_degrees : Q
}.

Definition MOON_PHASE_NAMES : list (string * string) :=
  [("new", "New Moon"); ("first_quarter", "First Quarter");
   ("full", "Full Moon"); ("last_quarter", "Last Quarter")].

Definition MOON_PHASE_EMOJIS : list (string * string) :=
  [("new", "🌑"); ("first_quarter", "🌓"); ("full", "🌕"); ("last_quarter", "🌗")].

(** [let angleDiff = Math.abs(angle - targetAngle);
    if (targetAngle === 0 && angleDiff > 180) angleDiff = 360 - angleDiff;]
    for the elongation [angle]. *)
Definition phase_exactness (angle targetAngle : Q) : Q :=
  let angleDiff := JS.abs (angle - targetAngle) in
  if Qeq_bool targetAngle 0 && JS.ltb 180 angleDiff then 360 - angleDiff
  else angleDiff.

(** The event pushed for a crossing of [targetAngle] detected at the
    sample [jd]. *)
Definition moon_phase_event (phaseName : string) (targetAngle jd : Q) : MoonPhase :=
  let exactJd := findExactPhaseTime (jd - 0.5) jd targetAngle in
  let sunLon := lon "sun" exactJd in
  let moonLon := lon "moon" exactJd in
  let sunData := getSign sunLon in
  let moonData := getSign moonLon in
  let angleDiff := phase_exactness (getSunMoonAngle exactJd) targetAngle in
  {| phase := phaseName;
     mp_name := lookup phaseName MOON_PHASE_NAMES;
     emoji := lookup phaseName MOON_PHASE_EMOJIS;
     mp_date := fromJD exactJd;
     mp_jd := JS.round (exactJd * 1000) / 1000;
     sun_longitude := JS.round (sunLon * 100) / 100;
     moon_longitude := JS.round (moonLon * 100) / 100;
     sun_sign := sign sunData;
     moon_sign := sign moonData;
     sun_degree := degree sunData;
     moon_degree := degree moonData;
     exactness_degrees := JS.round (angleDiff * 10000) / 10000 |}.

(** The body of the loop of [calcMoonPhases] at the sample [jd], on
    [prevAngle] and [phases]. *)
Definition moon_step (jd : Q) (s : Q * list MoonPhase) : Q * list MoonPhase :=
  let '(prevAngle, phases) := s in
  let currAngle := getSunMoonAngle jd in
  let phases :=
    fold_left
      (fun phases (pt : string * Q) =>
         let '(phaseName, targetAngle) := pt in
         if detectPhaseCrossing prevAngle currAngle targetAngle
         then (phases ++ [moon_phase_event phaseName targetAngle jd])%list
         else phases)
      MOON_PHASE_ANGLES phases in
  (currAngle, phases).

Definition calcMoonPhases (year : Z) : list MoonPhase :=
  let startJd := toJD year 1 1 0 in
  let endJd := toJD (year + 1)%Z 1 1 0 in
  let prevAngle := getSunMoonAngle startJd in
  sort_by mp_jd
    (snd (for_jd (rounds (startJd + 0.5) endJd 0.5) endJd 0.5 moon_step
            (startJd + 0.5) (prevAngle, []))).

End Natal.

(** ** The transits function *)

Module Transits.

Definition PLANETS : list (string * Planet) :=
  [("sun",     {| name := "Sun";     motion := 0.9856; j2000 := 280.46 |});
   ("moon",    {| name := "Moon";    motion := 13.176; j2000 := 218.32 |});
   ("mercury", {| name := "Mercury"; motion := 4.092;  j2000 := 252.25 |});
   ("venus",   {| name := "Venus";   motion := 1.602;  j2000 := 181.98 |});
   ("mars",    {| name := "Mars";    motion := 0.524;  j2000 := 355.45 |});
   ("jupiter", {| name := "Jupiter"; motion := 0.0831; j2000 := 34.40 |});
   ("saturn",  {| name := "Saturn";  motion := 0.0335; j2000 := 49.94 |});
   ("uranus",  {| name := "Uranus";  motion := 0.0117; j2000 := 313.23 |});
   ("neptune", {| name := "Neptune"; motion := 0.006;  j2000 := 304.88 |})].

Definition toJD (y m d : Q) : Q :=
  let '(y, m) := if JS.leb m 2 then (y - 1, m + 12) else (y, m) in
  let A := JS.floor (y / 100) in
  JS.floor (365.25 * (y + 4716)) + JS.floor (30.6001 * (m + 1))
    + d + 2 - A + JS.floor (A / 4) - 1524.5.

Record SignDeg := { sign_name : option string; deg : Q }.

Definition sign (lon : Q) : SignDeg :=
  let n := norm lon in
  {| sign_name := JS.index ZODIAC (JS.floor (n / 30));
     deg := JS.round (JS.rem n 30 * 10) / 10 |}.

Definition lon (p : string) (jd : Q) : Q :=
  match lookup p PLANETS with
  | Some pl => norm (j2000 pl + motion pl * (jd - J2000))
  | None => 0
  end.

Definition planet_name (k : string) : string :=
  match lookup k PLANETS with
  | Some pl => name pl
  | None => "undefined"
  end.

(** [const { sign: sg, deg } = sign(l)] *)
Definition sign_of (l : Q) : option string * Q :=
  let sd := sign l in (sign_name sd, deg sd).

Definition retro_scan (lonf : string -> Q -> Q) (s e : Q)
    (r0 : list TransitEvent) (k : string) : list TransitEvent :=
  scan_body "retro_start" "retro_end" planet_name sign_of lonf s e r0 k.

Definition retro_bodies : list string :=
  ["mercury"; "venus"; "mars"; "jupiter"; "saturn"; "uranus"; "neptune"].

(** [retrogrades] over a position function. *)
Definition retrogrades_over (lonf : string -> Q -> Q) (year : Z)
    : list TransitEvent :=
  let s := toJD year 1 1 in
  let e := toJD (year + 1)%Z 1 1 in
  sort_by_jd (fold_left (retro_scan lonf s e) retro_bodies []).

(** [retrogrades(year)] *)
Definition retrogrades (year : Z) : list TransitEvent :=
  retrogrades_over lon year.

Definition ingress_steps : list (string * Q) :=
  [("moon", 0.5); ("sun", 1); ("mercury", 0.5); ("venus", 0.5); ("mars", 1);
   ("jupiter", 2); ("saturn", 3); ("uranus", 5); ("neptune", 7)].

Definition ingresses (year : Z) : list IngressEvent :=
  let s := toJD year 1 1 in
  let e := toJD (year + 1)%Z 1 1 in
  ingress_scan (fun l => sign_name (sign l)) lon PLANETS ingress_steps s e.

Record AspectDef := { angle : Q; orb : Q; symbol : string }.

Definition ASPECTS : list (string * AspectDef) :=
  [("conjunction", {| angle := 0;   orb := 8; symbol := "☌" |});
   ("sextile",     {| angle := 60;  orb := 6; symbol := "⚹" |});
   ("square",      {| angle := 90;  orb := 8; symbol := "□" |});
   ("trine",       {| angle := 120; orb := 8; symbol := "△" |});
   ("opposition",  {| angle := 180; orb := 8; symbol := "☍" |})].

Definition aspect_entries : list (string * (Q * Q * string)) :=
  map (fun na => (fst na, (angle (snd na), orb (snd na), symbol (snd na)))) ASPECTS.

Definition outer : list string := ["jupiter"; "saturn"; "uranus"; "neptune"].

Definition aspects (year : Z) : list (AspectEvent SignDeg) :=
  let s := toJD year 1 1 in
  let e := toJD (year + 1)%Z 1 1 in
  aspect_scan SignDeg sign lon planet_name outer aspect_entries s e.

End Transits.

(** ** Chart geometry over the reals *)

Module Chart.

Local Open Scope R_scope.

Definition OBLIQUITY : R := 23.4393.

Definition trunc (x : R) : Z := if Rle_dec 0 x then Zfloor x else Zceil x.

(** [a % b] *)
Definition rem (a b : R) : R := a - b * IZR (trunc (a / b)).

Definition norm (a : R) : R :=
  let a := rem a 360 in
  if Rlt_dec a 0 then a + 360 else a.

Definition degToRad (d : R) : R := d * PI / 180.
Definition radToDeg (r : R) : R := r * 180 / PI.

(** [Math.atan2(y, x)] on finite arguments, as ECMAScript defines it. *)
Definition atan2 (y x : R) : R :=
  if Rlt_dec 0 x then atan (y / x)
  else if Rlt_dec x 0 then
    (if Rle_dec 0 y then atan (y / x) + PI else atan (y / x) - PI)
  else if Rlt_dec 0 y then PI / 2
  else if Rlt_dec y 0 then - (PI / 2)
  else 0.

Definition gmst (jd : R) : R :=
  let T := (jd - 2451545.0) / 36525 in
  let theta := 280.46061837 + 360.98564736629 * (jd - 2451545.0)
               + 0.000387933 * T * T - T * T * T / 38710000 in
  norm theta.

Definition lst (jd longitude : R) : R := norm (gmst jd + longitude).

(** The midheaven as [calcMidheaven] computes it from the local sidereal
    time. *)
Definition midheaven_of (localST : R) : R :=
  let oblRad := degToRad OBLIQUITY in
  let lstRad := degToRad localST in
  let mc := radToDeg (atan2 (sin lstRad) (cos lstRad * cos oblRad)) in
  norm mc.

Definition calcMidheaven (jd longitude : R) : R :=
  midheaven_of (lst jd longitude).

(** [calcAscendant] *)
Definition calcAscendant (jd latitude longitude : R) : R :=
  let localST := lst jd longitude in
  let latRad := degToRad latitude in
  let oblRad := degToRad OBLIQUITY in
  let lstRad := degToRad localST in
  let tanAsc := - cos lstRad
                / (sin lstRad * cos oblRad + tan latRad * sin oblRad) in
  let asc := radToDeg (atan tanAsc) in
  let asc :=
    if Rle_dec 0 localST then
      if Rlt_dec localST 180 then asc + 180
      else if Rlt_dec localST 360 then (if Rlt_dec asc 0 then asc + 360 else asc)
      else asc
    else asc in
  norm asc.

(** [Math.round] *)
Definition round (x : R) : Z := Zfloor (x + 0.5).

(** [Math.round((1 - Math.cos(degToRad(angle))) / 2 * 100)] *)
Definition illumination_of (angle : R) : Z :=
  round ((1 - cos (degToRad angle)) / 2 * 100).

End Chart.

(** ** The phase of the Moon at an instant

    [getCurrentMoonPhase] of the natal-chart function: the elongation is
    the rational one of [Natal.getSunMoonAngle]; the illumination takes its
    cosine, over the reals. *)

Record CurrentMoonPhase := {
  cur_phase : string;
  cur_name : option string;
  cur_emoji : option string;
  illumination : Z;
  age_days : Q
}.

Definition phaseNames : list (string * string) :=
  [("new", "New Moon"); ("waxing_crescent", "Waxing Crescent");
   ("first_quarter", "First Quarter"); ("waxing_gibbous", "Waxing Gibbous");
   ("full", "Full Moon"); ("waning_gibbous", "Waning Gibbous");
   ("last_quarter", "Last Quarter"); ("waning_crescent", "Waning Crescent")].

Definition phaseEmojis : list (string * string) :=
  [("new", "🌑"); ("waxing_crescent", "🌒"); ("first_quarter", "🌓");
   ("waxing_gibbous", "🌔"); ("full", "🌕"); ("waning_gibbous", "🌖");
   ("last_quarter", "🌗"); ("waning_crescent", "🌘")].

(** The chain of tests on the elongation. *)
Definition phase_of_angle (angle : Q) : string :=
  if JS.ltb angle 22.5 || JS.leb 337.5 angle then "new"
  else if JS.ltb angle 67.5 then "waxing_crescent"
  else if JS.ltb angle 112.5 then "first_quarter"
  else if JS.ltb angle 157.5 then "waxing_gibbous"
  else if JS.ltb angle 202.5 then "full"
  else if JS.ltb angle 247.5 then "waning_gibbous"
  else if JS.ltb angle 292.5 then "last_quarter"
  else "waning_crescent".

Definition getCurrentMoonPhase (jd : Q) : CurrentMoonPhase :=
  let angle := Natal.getSunMoonAngle jd in
  let phase := phase_of_angle angle in
  let illumination := Chart.illumination_of (Q2R angle) in
  let ageDays := JS.round (angle / 360 * 29.53 * 10) / 10 in
  {| cur_phase := phase;
     cur_name := lookup phase phaseNames;
     cur_emoji := lookup phase phaseEmojis;
     illumination := illumination;
     age_days := ageDays |}.

(** ** Notions used in the statements *)

(** The shortest separation of two longitudes: the absolute difference,
    replaced by its complement to 360 when it exceeds 180. *)
Definition shortestSeparation (a b : Q) : Q :=
  if Qlt_le_dec 180 (Qabs (a - b)) then 360 - Qabs (a - b) else Qabs (a - b).

(** Rounding to two decimals and to one decimal. *)
Definition round2 (x : Q) : Q := JS.round (x * 100) / 100.
Definition round1 (x : Q) : Q := JS.round (x * 10) / 10.

(** The number of days of a month of the Gregorian calendar. *)
Definition leap_year (y : Z) : bool :=
  ((y mod 4 =? 0) && negb (y mod 100 =? 0) || (y mod 400 =? 0))%Z.

Definition days_in_month (y m : Z) : Z :=
  (if (m =? 2) then (if leap_year y then 29 else 28)
   else if (m =? 4) || (m =? 6) || (m =? 9) || (m =? 11) then 30
   else 31)%Z.

(** A calendar date. *)
Definition calendar_date (y m d : Z) : Prop :=
  (1 <= m <= 12 /\ 1 <= d <= days_in_month y m)%Z.

(** The events of a list that are stations of the given tag and body. *)
Definition stations (tag planet : string) (l : list TransitEvent) : list TransitEvent :=
  filter (fun ev => String.eqb (type ev) tag && String.eqb (body ev) planet) l.

(** [e] is out of orb at the separation [sep]. *)
Definition out_of_orb (sep : Q) (e : string * Natal.AspectDef) : Prop :=
  Natal.orb (snd e) < Qabs (sep - Natal.angle (snd e)).

(** The aspect that [findAspect] reports for the entry [(n, d)]. *)
Definition reported (sep : Q) (n : string) (d : Natal.AspectDef) : Natal.Aspect :=
  {| Natal.aspect := n;
     Natal.a_symbol := Natal.symbol d;
     Natal.a_nature := Natal.nature d;
     Natal.a_orb := round2 (Qabs (sep - Natal.angle d));
     Natal.exact := JS.ltb (Qabs (sep - Natal.angle d)) 1 |}.

(** The samples [l], which follow the sample [prev], all move in the
    direction [d] under the longitude [lonf]. *)
Fixpoint same_direction (lonf : Q -> Q) (d : Direction) (prev : Q) (l : list Q)
    : Prop :=
  match l with
  | [] => True
  | j :: l' =>
      classify (unwrap (lonf j) (lonf prev)) = d /\ same_direction lonf d j l'
  end.

(** A longitude that rises up to day 11, falls up to day 12.5 and rises
    again: a body that reverses twice. *)
Definition reversing_twice (k : string) (jd : Q) : Q :=
  if JS.leb jd 11 then jd else if JS.leb jd 12.5 then 22 - jd else jd - 3.

(** The events of the scan of the body [k] at the sample [jd]. *)
Definition start_event (start_tag : string) (planet_name : string -> string)
    (sign_of : Q -> option string * Q) (k : string) (lonf : Q -> Q) (jd : Q)
    : TransitEvent :=
  {| type := start_tag;
     body := planet_name k;
     date := fromJD jd;
     ev_sign := fst (sign_of (lonf jd));
     ev_degree := snd (sign_of (lonf jd));
     duration_days := None;
     jd := JS.round (jd * 100) / 100 |}.

Definition end_event (end_tag : string) (planet_name : string -> string)
    (sign_of : Q -> option string * Q) (k : string) (lonf : Q -> Q) (jd : Q)
    (days : Z) : TransitEvent :=
  {| type := end_tag;
     body := planet_name k;
     date := fromJD jd;
     ev_sign := fst (sign_of (lonf jd));
     ev_degree := snd (sign_of (lonf jd));
     duration_days := Some days;
     jd := JS.round (jd * 100) / 100 |}.

(** What the scan of a body that moves forward at every step of [st] days
    keeps true of its variables when it reaches the sample [jd]. *)
Definition forward_state (lonf : Q -> Q) (st jd : Q) (s : RetroState) : Prop :=
  (pD s = None \/ pD s = Some direct) /\
  (pL s = None \/ exists jp : Q, pL s = Some (lonf jp) /\ jd = jp + st).

(** The mean elongation of the Moon from the Sun, before any reduction
    to a turn, and its daily rate. *)
Definition elongation_rate : Q := 13.176 - 0.9856.

Definition mean_elongation (t : Q) : Q :=
  (218.32 - 280.46) + elongation_rate * (t - J2000).

(** Two to the power [m]. *)
Fixpoint pow2 (m : nat) : Q :=
  match m with
  | O => 1
  | Datatypes.S m' => 2 * pow2 m'
  end.

(** The class of an aspect: harmonious, challenging, or a conjunction
    (of nature major); exactly one of the three tests of the synastry
    summary holds. *)
Definition aspect_class (h : Natal.Aspect) : Prop :=
  match String.eqb (Natal.a_nature h) "harmonious",
        String.eqb (Natal.a_nature h) "challenging",
        String.eqb (Natal.aspect h) "conjunction" with
  | true, false, false | false, true, false | false, false, true => True
  | _, _, _ => False
  end.

(** An ingress into the sign that follows in the zodiac: from the sign of
    index [i] to the sign of index [i + 1], Aries after Pisces. *)
Definition next_sign_ingress (ev : IngressEvent) : Prop :=
  exists i : Z,
    (0 <= i <= 11)%Z /\
    JS.index ZODIAC i = Some (from_sign ev) /\
    to_sign ev = JS.index ZODIAC ((i + 1) mod 12)%Z.

(** What the ingress scan of a body keeps true of [prev] and [r] when it
    reaches the sample [jd]: the events so far enter the next sign, and
    [prev] is the sign at the sample before. *)
Definition ingress_state (sign_name_of : Q -> option string) (lonf : Q -> Q)
    (st jd : Q) (s : option string * list IngressEvent) : Prop :=
  Forall next_sign_ingress (snd s) /\
  (fst s = None \/
   exists jp : Q, jd = jp + st /\ fst s = sign_name_of (lonf jp)).

(** What the aspect scan keeps true of its variables: the events so far
    satisfy [P]; while in orb the best deviation is within the corridor;
    out of orb it is the initial 999. *)
Definition aspect_state {Pos : Type} (corridor : Q)
    (P : AspectEvent Pos -> Prop) (s : AspectState Pos) : Prop :=
  Forall P (ar s) /\
  (io s = true -> 0 <= bD s /\ bD s <= corridor) /\
  (io s = false -> corridor < bD s).

(** The exactness of an aspect event is within the largest orb, and within
    the corridor of 3 degrees for an aspect of the Sun. *)
Definition exactness_within {Pos : Type} (ev : AspectEvent Pos) : Prop :=
  0 <= exactness ev /\ exactness ev <= 8 /\
  (body1 ev = "Sun" -> exactness ev <= 3).

(** Two bodies for a run of an aspect: the body [a] moves by two degrees a
    day, every other body stays at 100 degrees. *)
Definition passing_body (k : string) (jd : Q) : Q :=
  if String.eqb k "a" then 2 * jd else 100.

(** A moon phase event of one of the four cardinal phases, exact to within
    the tolerance. *)
Definition exact_phase (ev : Natal.MoonPhase) : Prop :=
  (exists target : Q, In (Natal.phase ev, target) Natal.MOON_PHASE_ANGLES) /\
  0 <= Natal.exactness_degrees ev /\ Natal.exactness_degrees ev <= 0.01.

(** What the loop of [calcMoonPhases] keeps true when it reaches the
    sample [jd]: the events so far are exact, and [prevAngle] is the
    elongation half a day before. *)
Definition moon_state (jd : Q) (s : Q * list Natal.MoonPhase) : Prop :=
  Forall exact_phase (snd s) /\
  exists jp : Q, jd = jp + 0.5 /\ fst s = Natal.getSunMoonAngle jp.

(** The whole numbers [lo], [lo + 1], ..., [lo + n - 1]. *)
Definition Zrange (lo : Z) (n : nat) : list Z :=
  map (fun i => (lo + Z.of_nat i)%Z) (seq 0 n).

(** The round trip through the Julian day, as a test on one date. *)
Definition roundtrip_date (y m d : Z) : bool :=
  let '(y', m', d') := fromJD_ymd (Natal.toJD y m d 0) in
  ((y' =? y) && (m' =? m) && (d' =? d))%Z.

(** The round trip on every date of the [n] years from [lo] on. *)
Notation roundtrip_years lo n :=
  (forallb (fun y =>
     forallb (fun m =>
       forallb (fun d => roundtrip_date y m d)
         (Zrange 1 (Z.to_nat (days_in_month y m))))
       (Zrange 1 12))
     (Zrange lo n)).

(** * Facts about the arithmetic *)

Lemma ltb_lt (x y : Q) : JS.ltb x y = true <-> x < y.
Proof.
  unfold JS.ltb. rewrite Qlt_alt. destruct (x ?= y); split; congruence.
Qed.

Lemma ltb_ge (x y : Q) : JS.ltb x y = false <-> y <= x.
Proof.
  unfold JS.ltb. rewrite Qle_alt.
  rewrite <- (Qcompare_antisym x y).
  destruct (x ?= y); simpl; split; congruence.
Qed.

Lemma leb_le (x y : Q) : JS.leb x y = true <-> x <= y.
Proof. apply Qle_bool_iff. Qed.

Lemma leb_gt (x y : Q) : JS.leb x y = false <-> y < x.
Proof.
  unfold JS.leb. split; intro H.
  - apply Qnot_le_lt. intro K. apply Qle_bool_iff in K. congruence.
  - destruct (Qle_bool x y) eqn:E; [|reflexivity].
    apply Qle_bool_iff in E. lra.
Qed.

Lemma trunc_nonneg (x : Q) :
  0 <= x -> inject_Z (JS.trunc x) <= x /\ x < inject_Z (JS.trunc x) + 1.
Proof.
  intro H. unfold JS.trunc.
  apply Qle_bool_iff in H. rewrite H. split.
  - apply Qfloor_le.
  - pose proof (Qlt_floor x) as K. rewrite inject_Z_plus in K. exact K.
Qed.

Lemma trunc_neg (x : Q) :
  x < 0 -> x <= inject_Z (JS.trunc x) /\ inject_Z (JS.trunc x) - 1 < x.
Proof.
  intro H. unfold JS.trunc.
  destruct (Qle_bool 0 x) eqn:E.
  - apply Qle_bool_iff in E. lra.
  - split.
    + apply Qle_ceiling.
    + pose proof (Qceiling_lt x) as K.
      unfold Z.sub in K. rewrite inject_Z_plus in K. simpl in K.
      unfold Qminus. exact K.
Qed.

(** The remainder by 360 differs from the dividend by a multiple of 360 and
    lies strictly between -360 and 360, on the side of the dividend. *)
Lemma rem360_spec (a : Q) :
  exists k : Z,
    JS.rem a 360 == a - 360 * inject_Z k /\
    (0 <= a -> 0 <= JS.rem a 360 /\ JS.rem a 360 < 360) /\
    (a < 0 -> - (360) < JS.rem a 360 /\ JS.rem a 360 <= 0).
Proof.
  exists (JS.trunc (a / 360)). unfold JS.rem.
  split; [reflexivity|].
  assert (E : a == 360 * (a / 360)) by (field).
  split; intro H.
  - assert (Hq : 0 <= a / 360) by (apply Qle_shift_div_l; lra).
    destruct (trunc_nonneg _ Hq) as [L U]. lra.
  - assert (Hq : a / 360 < 0) by (apply Qlt_shift_div_r; lra).
    destruct (trunc_neg _ Hq) as [L U]. lra.
Qed.

(** [norm] subtracts a whole number of turns and lands in [0,360). *)
Lemma norm_spec (a : Q) :
  exists k : Z, norm a == a - 360 * inject_Z k /\ 0 <= norm a /\ norm a < 360.
Proof.
  destruct (rem360_spec a) as (k & E & Hpos & Hneg).
  unfold norm.
  destruct (JS.ltb (JS.rem a 360) 0) eqn:T.
  - apply ltb_lt in T.
    exists (k - 1)%Z. unfold Z.sub. rewrite inject_Z_plus. simpl inject_Z.
    destruct (Qlt_le_dec a 0) as [N|P].
    + destruct (Hneg N). split; [|lra]. rewrite E. ring.
    + destruct (Hpos P). lra.
  - apply ltb_ge in T.
    exists k. split; [exact E|].
    destruct (Qlt_le_dec a 0) as [N|P].
    + destruct (Hneg N). lra.
    + destruct (Hpos P). lra.
Qed.

Lemma norm_range (a : Q) : 0 <= norm a /\ norm a < 360.
Proof. destruct (norm_spec a) as (k & _ & H). exact H. Qed.

(** An integer strictly between -1 and 1 is 0. *)
Lemma inject_Z_small (k : Z) : -(1) < inject_Z k -> inject_Z k < 1 -> k = 0%Z.
Proof.
  intros L U.
  assert (L' : (-1 < k)%Z) by (rewrite Zlt_Qlt; exact L).
  assert (U' : (k < 1)%Z) by (rewrite Zlt_Qlt; exact U).
  lia.
Qed.

(** The representative in [0,360) is unique. *)
Lemma norm_unique (a r : Q) (k : Z) :
  r == a - 360 * inject_Z k -> 0 <= r -> r < 360 -> norm a == r.
Proof.
  intros E L U.
  destruct (norm_spec a) as (k' & E' & L' & U').
  assert (D : inject_Z (k - k') == (norm a - r) / 360).
  { unfold Z.sub. rewrite inject_Z_plus, inject_Z_opp. rewrite E, E'. field. }
  assert (Z0 : (k - k' = 0)%Z).
  { apply inject_Z_small; rewrite D.
    - apply Qlt_shift_div_l; lra.
    - apply Qlt_shift_div_r; lra. }
  assert (k = k') by lia. subst k'. rewrite E, E'. reflexivity.
Qed.

Lemma norm_fixed (a : Q) : 0 <= a -> a < 360 -> norm a == a.
Proof.
  intros L U. apply (norm_unique a a 0); try assumption.
  simpl. ring.
Qed.




(** * Signs *)

Lemma floor_lower (z : Z) (x : Q) : inject_Z z <= x -> (z <= JS.floor x)%Z.
Proof.
  intro H. unfold JS.floor. rewrite <- (Qfloor_Z z). apply Qfloor_resp_le, H.
Qed.

Lemma floor_upper (z : Z) (x : Q) : x < inject_Z z + 1 -> (JS.floor x <= z)%Z.
Proof.
  intro H. unfold JS.floor.
  assert (K : inject_Z (Qfloor x) < inject_Z (z + 1)).
  { rewrite inject_Z_plus. pose proof (Qfloor_le x).
    change (inject_Z 1) with 1. lra. }
  rewrite <- Zlt_Qlt in K. lia.
Qed.

(** The remainder by 30 of a number that is not negative. *)
Lemma rem30_range (a : Q) : 0 <= a -> 0 <= JS.rem a 30 /\ JS.rem a 30 < 30.
Proof.
  intro H. unfold JS.rem.
  assert (E : a == 30 * (a / 30)) by field.
  assert (Hq : 0 <= a / 30) by (apply Qle_shift_div_l; lra).
  destruct (trunc_nonneg _ Hq) as [L U]. lra.
Qed.

(** Rounding a number of [0,30) to [n] hundredths or tenths stays in [0,30]. *)
Lemma round_scaled_range (x : Q) (s : Z) :
  (0 < s)%Z -> 0 <= x -> x < 30 ->
  0 <= inject_Z (JS.round (x * inject_Z s)) / inject_Z s /\
  inject_Z (JS.round (x * inject_Z s)) / inject_Z s <= 30.
Proof.
  intros Hs L U.
  assert (Hs' : 0 < inject_Z s) by (rewrite Zlt_Qlt in Hs; exact Hs).
  assert (P : 0 <= x * inject_Z s) by (apply Qmult_le_0_compat; lra).
  assert (B : x * inject_Z s <= 30 * inject_Z s).
  { apply Qmult_le_compat_r; lra. }
  assert (Lo : (0 <= JS.round (x * inject_Z s))%Z).
  { unfold JS.round. apply floor_lower. change (inject_Z 0) with 0. lra. }
  assert (Hi : (JS.round (x * inject_Z s) <= 30 * s)%Z).
  { unfold JS.round. apply floor_upper. rewrite inject_Z_mult.
    change (inject_Z 30) with 30. lra. }
  rewrite Zle_Qle in Lo, Hi. rewrite inject_Z_mult in Hi.
  change (inject_Z 30) with 30 in Hi. change (inject_Z 0) with 0 in Lo.
  split.
  - apply Qle_shift_div_l; lra.
  - apply Qle_shift_div_r; lra.
Qed.

Lemma signIndex_range (n : Q) :
  0 <= n -> n < 360 -> (0 <= JS.floor (n / 30) <= 11)%Z.
Proof.
  intros L U. split.
  - apply floor_lower. change (inject_Z 0) with 0. apply Qle_shift_div_l; lra.
  - apply floor_upper. change (inject_Z 11 + 1) with 12. apply Qlt_shift_div_r; lra.
Qed.



(** * Aspects *)

(** The loop returns the first entry within its orb, and nothing when all
    entries are out of orb. *)
Lemma findAspect_loop_first (entries : list (string * Natal.AspectDef)) (sep : Q) :
  match Natal.findAspect_loop entries sep with
  | Some h =>
      exists pre n d post,
        entries = (pre ++ (n, d) :: post)%list /\
        Forall (out_of_orb sep) pre /\
        Qabs (sep - Natal.angle d) <= Natal.orb d /\
        h = reported sep n d
  | None => Forall (out_of_orb sep) entries
  end.
Proof.
  induction entries as [|[n d] rest IH]; cbn [Natal.findAspect_loop].
  - constructor.
  - unfold JS.abs.
    destruct (JS.leb (Qabs (sep - Natal.angle d)) (Natal.orb d)) eqn:T.
    + apply leb_le in T.
      exists [], n, d, rest. repeat split; auto.
    + apply leb_gt in T.
      destruct (Natal.findAspect_loop rest sep) as [h|].
      * destruct IH as (pre & n' & d' & post & E & F & I & R).
        exists ((n, d) :: pre), n', d', post. subst rest.
        repeat split; auto.
      * constructor; assumption.
Qed.

Lemma findAspect_separation (lon1 lon2 : Q) :
  Natal.findAspect lon1 lon2 =
  Natal.findAspect_loop Natal.ASPECTS (shortestSeparation lon1 lon2).
Proof.
  unfold Natal.findAspect, shortestSeparation, JS.abs.
  destruct (JS.ltb 180 (Qabs (lon1 - lon2))) eqn:T;
    destruct (Qlt_le_dec 180 (Qabs (lon1 - lon2))) as [G|G]; try reflexivity.
  - apply ltb_lt in T. lra.
  - apply ltb_ge in T. lra.
Qed.

Lemma shortestSeparation_le_180 (a b : Q) : shortestSeparation a b <= 180.
Proof.
  unfold shortestSeparation.
  destruct (Qlt_le_dec 180 (Qabs (a - b))); lra.
Qed.


(** * Synastry *)


(** * Julian days *)

Lemma In_Zrange (lo z : Z) (n : nat) :
  (lo <= z < lo + Z.of_nat n)%Z -> In z (Zrange lo n).
Proof.
  intro H. unfold Zrange.
  apply in_map_iff. exists (Z.to_nat (z - lo)). split; [lia|].
  apply in_seq. lia.
Qed.

Lemma roundtrip_date_ok (y m d : Z) :
  roundtrip_date y m d = true -> fromJD_ymd (Natal.toJD y m d 0) = (y, m, d).
Proof.
  unfold roundtrip_date.
  destruct (fromJD_ymd (Natal.toJD y m d 0)) as [[y' m'] d'].
  intro H. apply andb_true_iff in H as [H Hd].
  apply andb_true_iff in H as [Hy Hm].
  apply Z.eqb_eq in Hy, Hm, Hd. congruence.
Qed.

Lemma forallb_Zrange (f : Z -> bool) (lo : Z) (n : nat) :
  forallb f (Zrange lo n) = true ->
  forall z : Z, (lo <= z < lo + Z.of_nat n)%Z -> f z = true.
Proof.
  intros A z Hz. rewrite forallb_forall in A. apply A, In_Zrange, Hz.
Qed.

Lemma roundtrip_years_sound (lo : Z) (n : nat) :
  roundtrip_years lo n = true ->
  forall y m d : Z,
    (lo <= y < lo + Z.of_nat n)%Z -> calendar_date y m d ->
    fromJD_ymd (Natal.toJD y m d 0) = (y, m, d).
Proof.
  intros A y m d Hy [Hm Hd].
  apply roundtrip_date_ok.
  pose proof (forallb_Zrange _ _ _ A y Hy) as B.
  assert (Hm' : (1 <= m < 1 + Z.of_nat 12)%Z) by lia.
  pose proof (forallb_Zrange _ _ _ B m Hm') as C.
  assert (Hd' : (1 <= d < 1 + Z.of_nat (Z.to_nat (days_in_month y m)))%Z) by lia.
  exact (forallb_Zrange _ _ _ C d Hd').
Qed.

Lemma roundtrip_1920_2029 : roundtrip_years 1920 110 = true.
Proof. vm_compute. reflexivity. Qed.

(** C6: for every calendar date from 1920-01-01 through 2029-12-31, the
    Julian day of the date converts back to the same date, also in its
    printed form. *)
Theorem fromJD_toJD_roundtrip (y m d : Z) :
  calendar_date y m d -> (1920 <= y <= 2029)%Z ->
  fromJD_ymd (Natal.toJD y m d 0) = (y, m, d) /\
  fromJD (Natal.toJD y m d 0) =
    JS.String_of y ++ "-" ++ JS.padStart 2 "0" (JS.String_of m)
      ++ "-" ++ JS.padStart 2 "0" (JS.String_of d).
Proof.
  intros Hc Hy.
  assert (R : fromJD_ymd (Natal.toJD y m d 0) = (y, m, d)).
  { apply (roundtrip_years_sound 1920 110 roundtrip_1920_2029); [|exact Hc].
    change (Z.of_nat 110) with 110%Z. lia. }
  split; [exact R|].
  unfold fromJD. rewrite R. reflexivity.
Qed.

Lemma fromJD_toJD_roundtrip_witness :
  fromJD_ymd (Natal.toJD 2024%Z 2%Z 29%Z 0) = (2024, 2, 29)%Z /\
  fromJD (Natal.toJD 2024%Z 2%Z 29%Z 0) = "2024-02-29".
Proof.
  apply (fromJD_toJD_roundtrip 2024 2 29).
  - unfold calendar_date. vm_compute. intuition discriminate.
  - lia.
Defined.

(** * The loop over Julian days *)

Lemma for_jd_visited {S : Type} (body : Q -> S -> S) (e st : Q) (fuel : nat) :
  forall (jd : Q) (acc : S),
    for_jd fuel e st body jd acc =
    fold_left (fun a j => body j a) (visited fuel e st jd) acc.
Proof.
  induction fuel as [|fuel IH]; intros jd acc; simpl.
  - reflexivity.
  - destruct (JS.ltb jd e); simpl; [apply IH|reflexivity].
Qed.

(** Once the bound is reached, more fuel changes nothing: the loop has left
    through its test. *)
Lemma for_jd_past_bound {S : Type} (body : Q -> S -> S) (e st : Q) (extra : nat) :
  0 < st ->
  forall (n : nat) (jd : Q) (acc : S),
    (e - jd) / st <= inject_Z (Z.of_nat n) ->
    for_jd (n + extra) e st body jd acc = for_jd n e st body jd acc.
Proof.
  intros Hst. induction n as [|n IH]; intros jd acc H.
  - assert (E : e - jd == st * ((e - jd) / st)) by (field; lra).
    assert (P : st * ((e - jd) / st) <= st * 0).
    { apply Qmult_le_l; [exact Hst|]. exact H. }
    assert (G : JS.ltb jd e = false) by (apply ltb_ge; lra).
    destruct extra; simpl; [reflexivity|]. rewrite G. reflexivity.
  - simpl. destruct (JS.ltb jd e); [|reflexivity].
    apply IH.
    assert (E : (e - (jd + st)) / st == (e - jd) / st - 1) by (field; lra).
    rewrite E. rewrite Nat2Z.inj_succ in H. unfold Z.succ in H.
    rewrite inject_Z_plus in H. change (inject_Z 1) with 1 in H. lra.
Qed.

(** [rounds] is the number of rounds of the loop. *)
Lemma for_jd_rounds {S : Type} (body : Q -> S -> S) (s e st : Q) (extra : nat) (acc : S) :
  0 < st ->
  for_jd (rounds s e st + extra) e st body s acc =
  for_jd (rounds s e st) e st body s acc.
Proof.
  intro Hst. apply for_jd_past_bound; [exact Hst|].
  unfold rounds.
  apply Qle_trans with (inject_Z (Qceiling ((e - s) / st))); [apply Qle_ceiling|].
  rewrite <- Zle_Qle. lia.
Qed.

(** * The retrograde scan on the positions of the model *)

(** Two longitudes less than half a turn apart, the later one ahead:
    after normalisation and unwrapping the step is their difference. *)
Lemma unwrap_norm_forward (x y : Q) :
  0 < y - x -> y - x < 180 -> unwrap (norm y) (norm x) == y - x.
Proof.
  intros L U.
  destruct (norm_spec x) as (kx & Ex & Lx & Ux).
  destruct (norm_spec y) as (ky & Ey & Ly & Uy).
  assert (D : norm y - norm x == (y - x) - 360 * inject_Z (ky - kx)).
  { unfold Z.sub. rewrite inject_Z_plus, inject_Z_opp. rewrite Ex, Ey. ring. }
  assert (J : (0 <= ky - kx <= 1)%Z).
  { split.
    - assert (K : inject_Z (-1) < inject_Z (ky - kx)).
      { change (inject_Z (-1)) with (-(1)). lra. }
      rewrite <- Zlt_Qlt in K. lia.
    - assert (K : inject_Z (ky - kx) < inject_Z 2).
      { change (inject_Z 2) with 2. lra. }
      rewrite <- Zlt_Qlt in K. lia. }
  unfold unwrap.
  assert (C : (ky - kx = 0 \/ ky - kx = 1)%Z) by lia.
  destruct C as [C|C]; rewrite C in D;
    [change (inject_Z 0) with 0 in D | change (inject_Z 1) with 1 in D].
  - assert (T1 : JS.ltb 180 (norm y - norm x) = false) by (apply ltb_ge; lra).
    rewrite T1.
    assert (T2 : JS.ltb (norm y - norm x) (-180) = false) by (apply ltb_ge; lra).
    rewrite T2. lra.
  - assert (T1 : JS.ltb 180 (norm y - norm x) = false) by (apply ltb_ge; lra).
    rewrite T1.
    assert (T2 : JS.ltb (norm y - norm x) (-180) = true) by (apply ltb_lt; lra).
    rewrite T2. lra.
Qed.

Lemma classify_direct (m : Q) : 0 < m -> classify m = direct.
Proof.
  intro H. unfold classify. apply ltb_lt in H. rewrite H. reflexivity.
Qed.

(** The step of a planet of mean motion [motion pl] over [st] days. *)
Lemma planet_step_forward (pl : Planet) (st jd : Q) :
  0 < motion pl * st -> motion pl * st < 180 ->
  unwrap (norm (j2000 pl + motion pl * (jd + st - J2000)))
         (norm (j2000 pl + motion pl * (jd - J2000))) == motion pl * st.
Proof.
  intros L U.
  rewrite unwrap_norm_forward.
  - ring.
  - ring_simplify. ring_simplify in L. lra.
  - ring_simplify. ring_simplify in U. lra.
Qed.

Section ForwardScan.

Variables start_tag end_tag : string.
Variable planet_name : string -> string.
Variable sign_of : Q -> option string * Q.
Variables (k : string) (lonf : Q -> Q) (st : Q).

(** Every step of [st] days moves the body forward. *)
Hypothesis forward :
  forall jd : Q, classify (unwrap (lonf (jd + st)) (lonf jd)) = direct.

Lemma retro_step_forward (jd : Q) (s : RetroState) :
  forward_state lonf st jd s ->
  let s' := retro_step start_tag end_tag planet_name sign_of k lonf jd s in
  forward_state lonf st (jd + st) s' /\ r s' = r s.
Proof.
  intros [HD HL]. unfold retro_step.
  destruct HL as [HL | (jp & HL & ->)]; rewrite HL.
  - split; [|reflexivity]. split; simpl; [exact HD|].
    right. exists jd. split; reflexivity.
  - rewrite forward.
    destruct HD as [HD|HD]; rewrite HD; simpl.
    + split; [|reflexivity]. split; simpl; [right; reflexivity|].
      right. exists (jp + st). split; reflexivity.
    + split; [|reflexivity]. split; simpl; [right; reflexivity|].
      right. exists (jp + st). split; reflexivity.
Qed.

Lemma for_jd_forward (e : Q) (fuel : nat) :
  forall (jd : Q) (s : RetroState),
    forward_state lonf st jd s ->
    r (for_jd fuel e st
         (retro_step start_tag end_tag planet_name sign_of k lonf) jd s) = r s.
Proof.
  induction fuel as [|fuel IH]; intros jd s H; simpl.
  - reflexivity.
  - destruct (JS.ltb jd e); [|reflexivity].
    destruct (retro_step_forward jd s H) as [H' E].
    rewrite (IH _ _ H'). exact E.
Qed.

End ForwardScan.

(** The scan of a body that always moves forward appends nothing. *)
Lemma scan_body_forward (start_tag end_tag : string)
    (planet_name : string -> string) (sign_of : Q -> option string * Q)
    (lonf : string -> Q -> Q) (s e : Q) (r0 : list TransitEvent) (k : string) :
  (forall jd : Q,
     classify (unwrap (lonf k (jd + retro_st k)) (lonf k jd)) = direct) ->
  scan_body start_tag end_tag planet_name sign_of lonf s e r0 k = r0.
Proof.
  intro F. unfold scan_body.
  rewrite (for_jd_forward start_tag end_tag planet_name sign_of k (lonf k)
             (retro_st k) F).
  - reflexivity.
  - split; simpl; left; reflexivity.
Qed.

(** The step of each scanned body in the natal-chart function. *)
Lemma natal_lon_step (k : string) (jd : Q) :
  In k Natal.retro_bodies ->
  exists pl : Planet,
    lookup k Natal.PLANETS = Some pl /\ 0 < motion pl /\
    unwrap (Natal.lon k (jd + retro_st k)) (Natal.lon k jd)
      == motion pl * retro_st k /\
    0 < motion pl * retro_st k.
Proof.
  intro H. simpl in H.
  repeat (destruct H as [<-|H];
    [ eexists; split; [reflexivity|]; split; [reflexivity|];
      split; [ unfold Natal.lon; cbn [lookup String.eqb Ascii.eqb Bool.eqb];
               apply planet_step_forward; reflexivity
             | reflexivity ] | ]).
  contradiction.
Qed.

(** The step of each scanned body in the transits function. *)
Lemma transits_lon_step (k : string) (jd : Q) :
  In k Transits.retro_bodies ->
  exists pl : Planet,
    lookup k Transits.PLANETS = Some pl /\ 0 < motion pl /\
    unwrap (Transits.lon k (jd + retro_st k)) (Transits.lon k jd)
      == motion pl * retro_st k /\
    0 < motion pl * retro_st k.
Proof.
  intro H. simpl in H.
  repeat (destruct H as [<-|H];
    [ eexists; split; [reflexivity|]; split; [reflexivity|];
      split; [ unfold Transits.lon; cbn [lookup String.eqb Ascii.eqb Bool.eqb];
               apply planet_step_forward; reflexivity
             | reflexivity ] | ]).
  contradiction.
Qed.

Lemma natal_lon_direct (k : string) (jd : Q) :
  In k Natal.retro_bodies ->
  classify (unwrap (Natal.lon k (jd + retro_st k)) (Natal.lon k jd)) = direct.
Proof.
  intro H. destruct (natal_lon_step k jd H) as (pl & _ & _ & E & P).
  apply classify_direct. rewrite E. exact P.
Qed.

Lemma transits_lon_direct (k : string) (jd : Q) :
  In k Transits.retro_bodies ->
  classify (unwrap (Transits.lon k (jd + retro_st k)) (Transits.lon k jd)) = direct.
Proof.
  intro H. destruct (transits_lon_step k jd H) as (pl & _ & _ & E & P).
  apply classify_direct. rewrite E. exact P.
Qed.

(** Scanning a list of forward-moving bodies leaves the event array as it
    was. *)
Lemma fold_scan_forward (scan : list TransitEvent -> string -> list TransitEvent)
    (bodies : list string) (r0 : list TransitEvent) :
  (forall k r1, In k bodies -> scan r1 k = r1) ->
  fold_left scan bodies r0 = r0.
Proof.
  revert r0. induction bodies as [|k bodies IH]; intros r0 H; simpl.
  - reflexivity.
  - rewrite (H k r0 (or_introl eq_refl)).
    apply IH. intros k' r1 Hk. apply H. right. exact Hk.
Qed.

Lemma calcRetrogrades_nil (year : Z) : Natal.calcRetrogrades year = [].
Proof.
  unfold Natal.calcRetrogrades, Natal.calcRetrogrades_over.
  rewrite fold_scan_forward; [reflexivity|].
  intros k r1 Hk. unfold Natal.retro_scan.
  apply scan_body_forward. intro jd. apply natal_lon_direct, Hk.
Qed.

Lemma retrogrades_nil (year : Z) : Transits.retrogrades year = [].
Proof.
  unfold Transits.retrogrades, Transits.retrogrades_over.
  rewrite fold_scan_forward; [reflexivity|].
  intros k r1 Hk. unfold Transits.retro_scan.
  apply scan_body_forward. intro jd. apply transits_lon_direct, Hk.
Qed.



(** C1 on the code: in 2025 the scan of either function reports no
    retrograde station of Mercury, hence not 3 or 4 of them. *)
Theorem mercury_stations_2025 :
  List.length (stations "retrograde_start" "Mercury" (Natal.calcRetrogrades 2025)) = 0%nat /\
  List.length (stations "retro_start" "Mercury" (Transits.retrogrades 2025)) = 0%nat /\
  ~ (3 <= List.length (stations "retrograde_start" "Mercury" (Natal.calcRetrogrades 2025)) <= 4)%nat /\
  ~ (3 <= List.length (stations "retro_start" "Mercury" (Transits.retrogrades 2025)) <= 4)%nat.
Proof.
  rewrite calcRetrogrades_nil, retrogrades_nil. simpl.
  repeat split; lia.
Qed.

(** * The pairing of stations *)

Lemma last_cons_default {A : Type} (l : list A) :
  forall a b : A, last (a :: l) b = last l a.
Proof.
  induction l as [|x l IH]; intros a b.
  - reflexivity.
  - change (last (a :: x :: l) b) with (last (x :: l) b).
    rewrite (IH x b), (IH x a). reflexivity.
Qed.

Section Pairing.

Variables start_tag end_tag : string.
Variable planet_name : string -> string.
Variable sign_of : Q -> option string * Q.
Variables (k : string) (lonf : Q -> Q).

Let step := retro_step start_tag end_tag planet_name sign_of k lonf.
Let started := start_event start_tag planet_name sign_of k lonf.
Let ended := end_event end_tag planet_name sign_of k lonf.

(** A sample that keeps the direction changes the previous longitude only. *)
Lemma step_same_direction (d : Direction) (prev jd : Q) (s : RetroState) :
  pL s = Some (lonf prev) -> pD s = Some d ->
  classify (unwrap (lonf jd) (lonf prev)) = d ->
  step jd s = {| pL := Some (lonf jd); pD := Some d; sJd := sJd s; r := r s |}.
Proof.
  intros HL HD HC. unfold step, retro_step. rewrite HL, HD, HC.
  destruct d; reflexivity.
Qed.

(** The first step of a body: there is no previous direction, and nothing
    is emitted. *)
Lemma step_first_direction (prev jd : Q) (s : RetroState) :
  pL s = Some (lonf prev) -> pD s = None ->
  step jd s =
  {| pL := Some (lonf jd);
     pD := Some (classify (unwrap (lonf jd) (lonf prev)));
     sJd := sJd s; r := r s |}.
Proof.
  intros HL HD. unfold step, retro_step. rewrite HL, HD. reflexivity.
Qed.

(** A change from direct to retrograde emits one start event at the sample
    and records its Julian day. *)
Lemma step_station_start (prev jd : Q) (s : RetroState) :
  pL s = Some (lonf prev) -> pD s = Some direct ->
  classify (unwrap (lonf jd) (lonf prev)) = retrograde ->
  step jd s =
  {| pL := Some (lonf jd); pD := Some retrograde; sJd := Some jd;
     r := (r s ++ [started jd])%list |}.
Proof.
  intros HL HD HC. unfold step, retro_step. rewrite HL, HD, HC.
  unfold started, start_event. simpl.
  destruct (sign_of (lonf jd)) as [sg dg]. reflexivity.
Qed.

(** A change from retrograde to direct after a recorded start emits one end
    event, with the rounded difference of the Julian days, and forgets the
    start. *)
Lemma step_station_end (prev jd sjd : Q) (s : RetroState) :
  pL s = Some (lonf prev) -> pD s = Some retrograde ->
  sJd s = Some sjd -> ~ sjd == 0 ->
  classify (unwrap (lonf jd) (lonf prev)) = direct ->
  step jd s =
  {| pL := Some (lonf jd); pD := Some direct; sJd := None;
     r := (r s ++ [ended jd (JS.round (jd - sjd))])%list |}.
Proof.
  intros HL HD HS HN HC. unfold step, retro_step. rewrite HL, HD, HC, HS.
  unfold ended, end_event. simpl.
  destruct (sign_of (lonf jd)) as [sg dg].
  destruct (Qeq_bool sjd 0) eqn:T.
  - apply Qeq_bool_iff in T. contradiction.
  - reflexivity.
Qed.

(** A change from retrograde to direct with no recorded start emits
    nothing. *)
Lemma step_station_unpaired (prev jd : Q) (s : RetroState) :
  pL s = Some (lonf prev) -> pD s = Some retrograde -> sJd s = None ->
  classify (unwrap (lonf jd) (lonf prev)) = direct ->
  step jd s =
  {| pL := Some (lonf jd); pD := Some direct; sJd := None; r := r s |}.
Proof.
  intros HL HD HS HC. unfold step, retro_step. rewrite HL, HD, HC, HS.
  simpl. destruct (sign_of (lonf jd)). simpl. rewrite HS. reflexivity.
Qed.

(** A run of samples in one direction. *)
Lemma run_same_direction (d : Direction) (l : list Q) :
  forall (prev : Q) (s : RetroState),
    pL s = Some (lonf prev) -> pD s = Some d ->
    same_direction lonf d prev l ->
    fold_left (fun a j => step j a) l s =
    {| pL := Some (lonf (last l prev)); pD := Some d; sJd := sJd s; r := r s |}.
Proof.
  induction l as [|j l IH]; intros prev s HL HD H.
  - simpl. destruct s; simpl in *. subst. reflexivity.
  - destruct H as [HC H]. cbn [fold_left].
    rewrite (step_same_direction d prev j s HL HD HC).
    rewrite (IH j); [|reflexivity|reflexivity|exact H]. cbn [sJd r].
    rewrite last_cons_default. reflexivity.
Qed.

(** A body that moves forward, reverses and, possibly, moves forward
    again. *)
Lemma scan_reversing (r0 : list TransitEvent) (j0 j1 jA : Q) (D1 R D2 : list Q) :
  same_direction lonf direct j0 (j1 :: D1) ->
  same_direction lonf retrograde (last (j1 :: D1) j0) (jA :: R) ->
  same_direction lonf direct (last (jA :: R) jA) D2 ->
  ~ jA == 0 ->
  r (fold_left (fun a j => step j a)
       (j0 :: (j1 :: D1) ++ (jA :: R) ++ D2)%list
       {| pL := None; pD := None; sJd := None; r := r0 |}) =
  (r0 ++ started jA ::
     match D2 with
     | [] => []
     | jB :: _ => [ended jB (JS.round (jB - jA))]
     end)%list.
Proof.
  intros [H1 HD1] [HA HR] HD2 HN.
  cbn [fold_left app].
  replace (step j0 {| pL := None; pD := None; sJd := None; r := r0 |})
    with {| pL := Some (lonf j0); pD := None; sJd := None; r := r0 |}
    by reflexivity.
  rewrite (step_first_direction j0 j1); [|reflexivity|reflexivity].
  cbn [sJd r]. rewrite H1.
  rewrite fold_left_app.
  rewrite (run_same_direction direct D1 j1); [|reflexivity|reflexivity|exact HD1].
  cbn [fold_left sJd r].
  assert (L1 : last (j1 :: D1) j0 = last D1 j1) by apply last_cons_default.
  rewrite L1 in HA.
  rewrite (step_station_start (last D1 j1) jA); [|reflexivity|reflexivity|exact HA].
  rewrite fold_left_app. cbn [r].
  rewrite (run_same_direction retrograde R jA); [|reflexivity|reflexivity|exact HR].
  cbn [sJd r].
  assert (L2 : last (jA :: R) jA = last R jA) by apply last_cons_default.
  rewrite L2 in HD2.
  destruct D2 as [|jB D2].
  - reflexivity.
  - destruct HD2 as [HB HD2]. cbn [fold_left].
    rewrite (step_station_end (last R jA) jB jA);
      [|reflexivity|reflexivity|reflexivity|exact HN|exact HB].
    rewrite (run_same_direction direct D2 jB); [|reflexivity|reflexivity|exact HD2].
    cbn [r]. rewrite <- app_assoc. reflexivity.
Qed.

End Pairing.

(** C8, as the code has it.  In the retrograde scan a change from direct to
    retrograde appends exactly one start event, at the sample where it is
    detected, and records the Julian day of that sample; the next change
    from retrograde to direct appends exactly one end event whose duration
    in days is the difference of the two Julian days rounded to the nearest
    whole day (the recorded Julian day not being 0); a change to direct
    with no recorded start appends nothing; and the scan of a body that
    reverses twice yields one start and one end, the start alone when the
    second reversal falls outside the scanned range. *)
Theorem retrograde_pairing
    (start_tag end_tag : string) (planet_name : string -> string)
    (sign_of : Q -> option string * Q) (k : string) (lonf : string -> Q -> Q) :
  (forall (prev jd : Q) (s : RetroState),
     pL s = Some (lonf k prev) -> pD s = Some direct ->
     classify (unwrap (lonf k jd) (lonf k prev)) = retrograde ->
     retro_step start_tag end_tag planet_name sign_of k (lonf k) jd s =
     {| pL := Some (lonf k jd); pD := Some retrograde; sJd := Some jd;
        r := (r s ++ [start_event start_tag planet_name sign_of k (lonf k) jd])%list |}) /\
  (forall (prev jd sjd : Q) (s : RetroState),
     pL s = Some (lonf k prev) -> pD s = Some retrograde ->
     sJd s = Some sjd -> ~ sjd == 0 ->
     classify (unwrap (lonf k jd) (lonf k prev)) = direct ->
     retro_step start_tag end_tag planet_name sign_of k (lonf k) jd s =
     {| pL := Some (lonf k jd); pD := Some direct; sJd := None;
        r := (r s ++ [end_event end_tag planet_name sign_of k (lonf k) jd
                        (JS.round (jd - sjd))])%list |}) /\
  (forall (prev jd : Q) (s : RetroState),
     pL s = Some (lonf k prev) -> pD s = Some retrograde -> sJd s = None ->
     classify (unwrap (lonf k jd) (lonf k prev)) = direct ->
     retro_step start_tag end_tag planet_name sign_of k (lonf k) jd s =
     {| pL := Some (lonf k jd); pD := Some direct; sJd := None; r := r s |}) /\
  (forall (s e : Q) (r0 : list TransitEvent) (j0 j1 jA : Q) (D1 R D2 : list Q),
     visited (rounds s e (retro_st k)) e (retro_st k) s
       = (j0 :: (j1 :: D1) ++ (jA :: R) ++ D2)%list ->
     same_direction (lonf k) direct j0 (j1 :: D1) ->
     same_direction (lonf k) retrograde (last (j1 :: D1) j0) (jA :: R) ->
     same_direction (lonf k) direct (last (jA :: R) jA) D2 ->
     ~ jA == 0 ->
     scan_body start_tag end_tag planet_name sign_of lonf s e r0 k =
     (r0 ++ start_event start_tag planet_name sign_of k (lonf k) jA ::
        match D2 with
        | [] => []
        | jB :: _ => [end_event end_tag planet_name sign_of k (lonf k) jB
                        (JS.round (jB - jA))]
        end)%list).
Proof.
  split; [intros; eapply step_station_start; eassumption|].
  split; [intros; eapply step_station_end; eassumption|].
  split; [intros; eapply step_station_unpaired; eassumption|].
  intros s e r0 j0 j1 jA D1 R D2 HV H1 H2 H3 HN.
  unfold scan_body. rewrite for_jd_visited, HV.
  apply scan_reversing; assumption.
Qed.

(** The scan at Mercury's cadence of a body that reverses twice, the second
    reversal a day and a half after the first. *)
Lemma retrograde_pairing_witness :
  Natal.retro_scan reversing_twice 10 14 [] "mercury" =
  [start_event "retrograde_start" Natal.planet_name Natal.sign_of "mercury"
     (reversing_twice "mercury") (10 + 0.5 + 0.5 + 0.5);
   end_event "retrograde_end" Natal.planet_name Natal.sign_of "mercury"
     (reversing_twice "mercury") (10 + 0.5 + 0.5 + 0.5 + 0.5 + 0.5 + 0.5)
     (JS.round ((10 + 0.5 + 0.5 + 0.5 + 0.5 + 0.5 + 0.5) - (10 + 0.5 + 0.5 + 0.5)))].
Proof.
  unfold Natal.retro_scan.
  apply (proj2 (proj2 (proj2
    (retrograde_pairing "retrograde_start" "retrograde_end" Natal.planet_name
       Natal.sign_of "mercury" reversing_twice)))
    10 14 [] 10 (10 + 0.5) (10 + 0.5 + 0.5 + 0.5) [10 + 0.5 + 0.5]
    [10 + 0.5 + 0.5 + 0.5 + 0.5; 10 + 0.5 + 0.5 + 0.5 + 0.5 + 0.5]
    [10 + 0.5 + 0.5 + 0.5 + 0.5 + 0.5 + 0.5;
     10 + 0.5 + 0.5 + 0.5 + 0.5 + 0.5 + 0.5 + 0.5]).
  - reflexivity.
  - repeat split.
  - repeat split.
  - repeat split.
  - intro H. discriminate H.
Defined.

(** C8, as the specification states it, fails: at Mercury's cadence of half
    a day, a start detected at day 11.5 and an end detected at day 13 are
    paired with a duration of 2 days, not the 1.5 days between the two
    samples. *)
Lemma retrograde_duration_rounded :
  exists (ev_start ev_end : TransitEvent) (days : Z),
    Natal.retro_scan reversing_twice 10 14 [] "mercury" = [ev_start; ev_end] /\
    type ev_start = "retrograde_start" /\ jd ev_start == 11.5 /\
    type ev_end = "retrograde_end" /\ jd ev_end == 13 /\
    duration_days ev_end = Some days /\
    ~ (inject_Z days == jd ev_end - jd ev_start).
Proof.
  eexists. eexists. exists 2%Z. split; [vm_compute; reflexivity|].
  repeat split; try reflexivity.
  intro H. vm_compute in H. discriminate H.
Qed.

(** * The moon-phase bisection *)

(** The elongation is the mean elongation less a whole number of turns. *)
Lemma getSunMoonAngle_spec (t : Q) :
  exists k : Z,
    Natal.getSunMoonAngle t == mean_elongation t - 360 * inject_Z k /\
    0 <= Natal.getSunMoonAngle t /\ Natal.getSunMoonAngle t < 360.
Proof.
  unfold Natal.getSunMoonAngle.
  change (Natal.lon "sun" t) with (norm (280.46 + 0.9856 * (t - J2000))).
  change (Natal.lon "moon" t) with (norm (218.32 + 13.176 * (t - J2000))).
  destruct (norm_spec (280.46 + 0.9856 * (t - J2000))) as (ks & Es & _).
  destruct (norm_spec (218.32 + 13.176 * (t - J2000))) as (km & Em & _).
  destruct (norm_spec (norm (218.32 + 13.176 * (t - J2000))
                       - norm (280.46 + 0.9856 * (t - J2000))))
    as (k & E & L & U).
  exists (km - ks + k)%Z. split; [|split; assumption].
  rewrite E, Es, Em. unfold mean_elongation, elongation_rate, Z.sub.
  rewrite !inject_Z_plus, inject_Z_opp. ring.
Qed.

(** Over half a day from [a] the elongation advances by the mean rate,
    up to one turn back. *)
Lemma getSunMoonAngle_advance (a t : Q) :
  a <= t -> t <= a + 0.5 ->
  Natal.getSunMoonAngle t
    == Natal.getSunMoonAngle a + elongation_rate * (t - a) \/
  Natal.getSunMoonAngle t
    == Natal.getSunMoonAngle a + elongation_rate * (t - a) - 360.
Proof.
  intros L U.
  destruct (getSunMoonAngle_spec a) as (ka & Ea & La & Ua).
  destruct (getSunMoonAngle_spec t) as (kt & Et & Lt & Ut).
  assert (D : Natal.getSunMoonAngle t - Natal.getSunMoonAngle a
              == elongation_rate * (t - a) - 360 * inject_Z (kt - ka)).
  { unfold Z.sub. rewrite inject_Z_plus, inject_Z_opp. rewrite Et, Ea.
    unfold mean_elongation, elongation_rate. ring. }
  unfold elongation_rate in *.
  assert (J : (0 <= kt - ka <= 1)%Z).
  { split.
    - assert (K : inject_Z (-1) < inject_Z (kt - ka)).
      { change (inject_Z (-1)) with (-(1)). lra. }
      rewrite <- Zlt_Qlt in K. lia.
    - assert (K : inject_Z (kt - ka) < inject_Z 2).
      { change (inject_Z 2) with 2. lra. }
      rewrite <- Zlt_Qlt in K. lia. }
  assert (C : (kt - ka = 0 \/ kt - ka = 1)%Z) by lia.
  destruct C as [C|C]; rewrite C in D;
    [change (inject_Z 0) with 0 in D; left
    |change (inject_Z 1) with 1 in D; right]; lra.
Qed.

(** The crossing test and the error of the bisection, for the new moon and
    for the other targets. *)
Lemma detectPhaseCrossing_new (prev curr target : Q) :
  Qeq_bool target 0 = true ->
  Natal.detectPhaseCrossing prev curr target = JS.ltb 270 prev && JS.ltb curr 90.
Proof. intro H. unfold Natal.detectPhaseCrossing. rewrite H. reflexivity. Qed.

Lemma detectPhaseCrossing_other (prev curr target : Q) :
  Qeq_bool target 0 = false ->
  Natal.detectPhaseCrossing prev curr target
    = JS.ltb prev target && JS.leb target curr.
Proof. intro H. unfold Natal.detectPhaseCrossing. rewrite H. reflexivity. Qed.

Lemma phase_error_of_new (angle target : Q) :
  Qeq_bool target 0 = true ->
  Natal.phase_error_of angle target =
  (if JS.ltb 180 angle then angle - 360 else angle) - target.
Proof. intro H. unfold Natal.phase_error_of. rewrite H. reflexivity. Qed.

Lemma phase_error_of_other (angle target : Q) :
  Qeq_bool target 0 = false ->
  Natal.phase_error_of angle target = angle - target.
Proof. intro H. unfold Natal.phase_error_of. rewrite H. reflexivity. Qed.

(** On a bracket of half a day where a crossing of the new moon is
    detected, the error of the bisection is a line of slope the mean rate,
    negative at the lower end and not negative at the upper end. *)
Lemma phase_error_linear_new (a b target : Q) :
  Qeq_bool target 0 = true ->
  b == a + 0.5 ->
  Natal.detectPhaseCrossing
    (Natal.getSunMoonAngle a) (Natal.getSunMoonAngle b) target = true ->
  exists c : Q,
    c < 0 /\ 0 <= c + elongation_rate * 0.5 /\
    forall t : Q, a <= t -> t <= b ->
      Natal.phase_error t target == c + elongation_rate * (t - a).
Proof.
  intros HT Hb HX.
  assert (T0 : target == 0) by (apply Qeq_bool_iff; exact HT).
  assert (Ub : b <= a + 0.5) by lra.
  assert (Lb : a <= b) by lra.
  pose proof (getSunMoonAngle_advance a b Lb Ub) as Ab.
  destruct (getSunMoonAngle_spec a) as (_ & _ & La & Ua).
  destruct (getSunMoonAngle_spec b) as (_ & _ & LB & UB).
  rewrite (detectPhaseCrossing_new _ _ _ HT) in HX.
  apply andb_true_iff in HX as [X1 X2].
  apply ltb_lt in X1. apply ltb_lt in X2.
  unfold elongation_rate in Ab |- *.
  exists (Natal.getSunMoonAngle a - 360).
  split; [lra|]. split; [destruct Ab; lra|].
  intros t Lt Ut. assert (Ut' : t <= a + 0.5) by lra.
  destruct (getSunMoonAngle_spec t) as (_ & _ & L0 & U0).
  unfold Natal.phase_error. rewrite (phase_error_of_new _ _ HT).
  pose proof (getSunMoonAngle_advance a t Lt Ut') as A.
  unfold elongation_rate in A.
  destruct (JS.ltb 180 (Natal.getSunMoonAngle t)) eqn:T;
    [apply ltb_lt in T | apply ltb_ge in T];
    destruct A; destruct Ab; lra.
Qed.

(** The same for the three other targets. *)
Lemma phase_error_linear_other (a b target : Q) :
  Qeq_bool target 0 = false ->
  0 <= target -> target < 360 ->
  b == a + 0.5 ->
  Natal.detectPhaseCrossing
    (Natal.getSunMoonAngle a) (Natal.getSunMoonAngle b) target = true ->
  exists c : Q,
    c < 0 /\ 0 <= c + elongation_rate * 0.5 /\
    forall t : Q, a <= t -> t <= b ->
      Natal.phase_error t target == c + elongation_rate * (t - a).
Proof.
  intros HT T0 T360 Hb HX.
  assert (Ub : b <= a + 0.5) by lra.
  assert (Lb : a <= b) by lra.
  pose proof (getSunMoonAngle_advance a b Lb Ub) as Ab.
  destruct (getSunMoonAngle_spec a) as (_ & _ & La & Ua).
  destruct (getSunMoonAngle_spec b) as (_ & _ & LB & UB).
  rewrite (detectPhaseCrossing_other _ _ _ HT) in HX.
  apply andb_true_iff in HX as [X1 X2].
  apply ltb_lt in X1. apply leb_le in X2.
  unfold elongation_rate in Ab |- *.
  exists (Natal.getSunMoonAngle a - target).
  split; [lra|]. split; [destruct Ab; lra|].
  intros t Lt Ut. assert (Ut' : t <= a + 0.5) by lra.
  destruct (getSunMoonAngle_spec t) as (_ & _ & L0 & U0).
  unfold Natal.phase_error. rewrite (phase_error_of_other _ _ HT).
  pose proof (getSunMoonAngle_advance a t Lt Ut') as A.
  unfold elongation_rate in A.
  destruct A; destruct Ab; lra.
Qed.

Lemma phase_error_linear (a b target : Q) (phase : string) :
  In (phase, target) Natal.MOON_PHASE_ANGLES ->
  b == a + 0.5 ->
  Natal.detectPhaseCrossing
    (Natal.getSunMoonAngle a) (Natal.getSunMoonAngle b) target = true ->
  exists c : Q,
    c < 0 /\ 0 <= c + elongation_rate * 0.5 /\
    forall t : Q, a <= t -> t <= b ->
      Natal.phase_error t target == c + elongation_rate * (t - a).
Proof.
  intros HIn Hb HX.
  destruct HIn as [HIn|[HIn|[HIn|[HIn|[]]]]];
    injection HIn as _ <-.
  - apply phase_error_linear_new; [reflexivity|assumption..].
  - apply phase_error_linear_other; [reflexivity|discriminate|reflexivity|assumption..].
  - apply phase_error_linear_other; [reflexivity|discriminate|reflexivity|assumption..].
  - apply phase_error_linear_other; [reflexivity|discriminate|reflexivity|assumption..].
Qed.

Section Bisection.

Variables (a b target c : Q).
Hypothesis error_line :
  forall t : Q, a <= t -> t <= b ->
    Natal.phase_error t target == c + elongation_rate * (t - a).

(** With the root between [lo] and [hi] and the error spanning less than
    [0.02 * 2 ^ m] over them, the loop returns through its tolerance test
    within [m + 1] more rounds. *)
Lemma bisect_converges (m : nat) :
  forall (n i : nat) (lo hi : Q),
    (m < n)%nat ->
    a <= lo -> lo <= hi -> hi <= b ->
    c + elongation_rate * (lo - a) <= 0 ->
    0 <= c + elongation_rate * (hi - a) ->
    elongation_rate * (hi - lo) < 0.02 * pow2 m ->
    a <= fst (Natal.bisect n i lo hi target) /\
    fst (Natal.bisect n i lo hi target) <= b /\
    Qabs (Natal.phase_error (fst (Natal.bisect n i lo hi target)) target)
      < Natal.tolerance /\
    (snd (Natal.bisect n i lo hi target) <= i + m + 1)%nat.
Proof.
  induction m as [|m IH]; intros n i lo hi Hn La Llh Hb Hlo Hhi Hw;
    unfold elongation_rate in Hlo, Hhi, Hw; try unfold elongation_rate in IH;
    (destruct n as [|n]; [lia|]); cbn [Natal.bisect pow2] in *;
    set (mid := (lo + hi) / 2);
    assert (Em : 2 * mid == lo + hi) by (unfold mid; field);
    clearbody mid;
    assert (Lm : a <= mid) by lra;
    assert (Um : mid <= b) by lra;
    pose proof (error_line mid Lm Um) as EQ;
    unfold elongation_rate in EQ;
    unfold JS.abs;
    destruct (JS.ltb (Qabs (Natal.phase_error mid target)) Natal.tolerance) eqn:T.
  - apply ltb_lt in T. cbn [fst snd]. repeat split; try assumption. lia.
  - exfalso. apply ltb_ge in T. unfold Natal.tolerance in T.
    assert (A : Qabs (Natal.phase_error mid target) < 0.01).
    { apply Qabs_Qlt_condition. rewrite EQ. split; lra. }
    lra.
  - apply ltb_lt in T. cbn [fst snd]. repeat split; try assumption. lia.
  - clear T.
    destruct (JS.ltb 0 (Natal.phase_error mid target)) eqn:S;
      [apply ltb_lt in S | apply ltb_ge in S]; rewrite EQ in S.
    + destruct (IH n (Datatypes.S i) lo mid) as (R1 & R2 & R3 & R4);
        try lra; try lia.
      repeat split; try assumption. lia.
    + destruct (IH n (Datatypes.S i) mid hi) as (R1 & R2 & R3 & R4);
        try lra; try lia.
      repeat split; try assumption. lia.
Qed.

End Bisection.



(** * The midheaven *)

Section Midheaven.

Local Open Scope R_scope.

Lemma Chart_trunc_small (x : R) : 0 <= x < 1 -> Chart.trunc x = 0%Z.
Proof.
  intros [L U]. unfold Chart.trunc.
  destruct (Rle_dec 0 x) as [_|N]; [|contradiction].
  apply Zfloor_eq. simpl. lra.
Qed.

Lemma Chart_norm_fixed (x : R) : 0 <= x < 360 -> Chart.norm x = x.
Proof.
  intros [L U]. unfold Chart.norm, Chart.rem.
  rewrite Chart_trunc_small by (split; lra).
  replace (x - 360 * 0) with x by ring.
  destruct (Rlt_dec x 0) as [N|_]; [lra|reflexivity].
Qed.

Lemma Chart_atan2_up (y : R) : 0 < y -> Chart.atan2 y 0 = PI / 2.
Proof.
  intro H. unfold Chart.atan2.
  destruct (Rlt_dec 0 0) as [N|_]; [lra|].
  destruct (Rlt_dec 0 y) as [_|N]; [reflexivity|contradiction].
Qed.

Lemma midheaven_of_90 : Chart.midheaven_of 90 = 90.
Proof.
  unfold Chart.midheaven_of, Chart.degToRad, Chart.radToDeg.
  replace (90 * PI / 180) with (PI / 2) by field.
  rewrite sin_PI2, cos_PI2, Rmult_0_l.
  rewrite Chart_atan2_up by lra.
  replace (PI / 2 * 180 / PI) with 90 by (field; apply PI_neq0).
  apply Chart_norm_fixed. lra.
Qed.

Lemma lst_90_at_J2000 : Chart.lst 2451545.0 (-190.46061837) = 90.
Proof.
  unfold Chart.lst, Chart.gmst.
  replace (280.46061837 + 360.98564736629 * (2451545.0 - 2451545.0)
           + 0.000387933 * ((2451545.0 - 2451545.0) / 36525)
             * ((2451545.0 - 2451545.0) / 36525)
           - (2451545.0 - 2451545.0) / 36525 * ((2451545.0 - 2451545.0) / 36525)
             * ((2451545.0 - 2451545.0) / 36525) / 38710000)
    with 280.46061837 by field.
  rewrite (Chart_norm_fixed 280.46061837) by lra.
  replace (280.46061837 + -190.46061837) with 90 by lra.
  apply Chart_norm_fixed. lra.
Qed.

End Midheaven.

(** C3, as the code has it: at a local sidereal time of 90 degrees, with
    the obliquity of 23.4393 degrees, the midheaven is at 90 degrees, the
    beginning of Cancer; [calcMidheaven] returns it for the Julian day
    2451545.0 at the longitude -190.46061837, where the local sidereal time
    is 90 degrees. *)
Theorem midheaven_at_lst_90 :
  Chart.midheaven_of 90 = 90%R /\
  Chart.lst 2451545.0 (-190.46061837) = 90%R /\
  Chart.calcMidheaven 2451545.0 (-190.46061837) = 90%R /\
  Natal.signIndex (Natal.getSign 90) = 3%Z /\
  Natal.sign (Natal.getSign 90) = Some "Cancer" /\
  Natal.degree (Natal.getSign 90) == 0.
Proof.
  split; [apply midheaven_of_90|].
  split; [apply lst_90_at_J2000|].
  split.
  - unfold Chart.calcMidheaven. rewrite lst_90_at_J2000. apply midheaven_of_90.
  - repeat split; reflexivity.
Qed.

(** C3, as the specification states it, fails: the midheaven at a local
    sidereal time of 90 degrees is not 0 degrees, and its sign is not
    Aries. *)
Lemma midheaven_at_lst_90_not_aries :
  Chart.midheaven_of 90 <> 0%R /\
  Natal.sign (Natal.getSign 90) <> Some "Aries".
Proof.
  split.
  - rewrite midheaven_of_90. apply Rgt_not_eq. 
    apply Rlt_gt. apply (IZR_lt 0 90). reflexivity.
  - discriminate.
Qed.

(** * Longitudes of the model *)



(** * Houses *)

Lemma getSign_index_range (L : Q) :
  (0 <= Natal.signIndex (Natal.getSign L) <= 11)%Z.
Proof.
  destruct (norm_range L) as [Lo Hi].
  exact (signIndex_range (norm L) Lo Hi).
Qed.

Lemma getSign_sign (L : Q) :
  Natal.sign (Natal.getSign L)
    = JS.index ZODIAC (Natal.signIndex (Natal.getSign L)).
Proof. reflexivity. Qed.

Lemma index_cases (k : Z) :
  (0 <= k <= 11)%Z ->
  (k = 0 \/ k = 1 \/ k = 2 \/ k = 3 \/ k = 4 \/ k = 5 \/ k = 6 \/ k = 7 \/
   k = 8 \/ k = 9 \/ k = 10 \/ k = 11)%Z.
Proof. lia. Qed.

Lemma getHouse_range_aux (planetLon ascendant : Q) :
  (1 <= Natal.getHouse planetLon ascendant <= 12)%Z /\
  (Natal.signIndex (Natal.getSign planetLon)
     = Natal.signIndex (Natal.getSign ascendant) ->
   Natal.getHouse planetLon ascendant = 1%Z).
Proof.
  unfold Natal.getHouse.
  pose proof (getSign_index_range planetLon) as Hp.
  pose proof (getSign_index_range ascendant) as Ha.
  set (kp := Natal.signIndex (Natal.getSign planetLon)) in *.
  set (ka := Natal.signIndex (Natal.getSign ascendant)) in *.
  clearbody kp ka.
  rewrite Z.rem_mod_nonneg by lia.
  split.
  - pose proof (Z.mod_pos_bound (kp - ka + 12) 12 ltac:(lia)). lia.
  - intros ->. replace (ka - ka + 12)%Z with 12%Z by lia. reflexivity.
Qed.

(** X3: the house of a planet is a number from 1 to 12; a planet in the
    sign of the ascendant is in house 1. *)
Theorem getHouse_range (planetLon ascendant : Q) :
  (1 <= Natal.getHouse planetLon ascendant <= 12)%Z /\
  (Natal.signIndex (Natal.getSign planetLon)
     = Natal.signIndex (Natal.getSign ascendant) ->
   Natal.getHouse planetLon ascendant = 1%Z).
Proof. apply getHouse_range_aux. Qed.

(** The houses for an ascendant in the sign of index [k]. *)
Lemma houses_by_index (ascendant : Q) :
  Natal.calcWholeSIgnHouses ascendant =
  map (fun i : Z =>
         {| Natal.house := (i + 1)%Z;
            Natal.house_sign :=
              JS.index ZODIAC
                (Z.rem (Natal.signIndex (Natal.getSign ascendant) + i) 12);
            Natal.cusp :=
              (Z.rem (Natal.signIndex (Natal.getSign ascendant) + i) 12 * 30)%Z;
            Natal.meaning := JS.index Natal.HOUSE_MEANINGS i |})
      (JS.upto 12).
Proof. reflexivity. Qed.



(** X6: every house overlay of the synastry places the planet in a house
    from 1 to 12, whatever the longitudes of the two charts, so the text of
    the overlay always names one of the twelve house meanings. *)
Theorem house_overlays_defined (chart1 chart2 : Natal.NatalChart) :
  Forall (fun o =>
            (1 <= Natal.in_house o <= 12)%Z /\
            exists m : string,
              JS.index Natal.HOUSE_MEANINGS (Natal.in_house o - 1) = Some m /\
              Natal.ov_meaning o =
                Natal.ov_planet o ++ " activates "
                  ++ Natal.name_or (Natal.input_name chart1) "Person 1"
                  ++ "'s house of " ++ m)
    (Natal.houseOverlays1 chart1 chart2) /\
  map Natal.ov_planet (Natal.houseOverlays1 chart1 chart2)
    = map Natal.cp_name (Natal.planets chart2) /\
  Forall (fun o => (1 <= Natal.in_house o <= 12)%Z)
    (Natal.houseOverlays2 chart1 chart2) /\
  map Natal.ov_planet (Natal.houseOverlays2 chart1 chart2)
    = map Natal.cp_name (Natal.planets chart1).
Proof.
  unfold Natal.houseOverlays1, Natal.houseOverlays2, Natal.houseOverlays.
  repeat split.
  - apply Forall_map, Forall_forall. intros p _. cbn [Natal.in_house Natal.ov_meaning Natal.ov_planet].
    pose proof (proj1 (getHouse_range_aux (Natal.cp_longitude p)
                         (Natal.ascendant_longitude chart1))) as R.
    split; [exact R|].
    set (h := Natal.getHouse (Natal.cp_longitude p)
                (Natal.ascendant_longitude chart1)) in *.
    clearbody h.
    assert (C : (h - 1 = 0 \/ h - 1 = 1 \/ h - 1 = 2 \/ h - 1 = 3 \/ h - 1 = 4 \/
                 h - 1 = 5 \/ h - 1 = 6 \/ h - 1 = 7 \/ h - 1 = 8 \/ h - 1 = 9 \/
                 h - 1 = 10 \/ h - 1 = 11)%Z) by lia.
    destruct C as [->|[->|[->|[->|[->|[->|[->|[->|[->|[->|[->| ->]]]]]]]]]]];
      eexists; split; reflexivity.
  - rewrite map_map. reflexivity.
  - apply Forall_map, Forall_forall. intros p _. cbn [Natal.in_house].
    apply getHouse_range_aux.
  - rewrite map_map. reflexivity.
Qed.

(** * More on aspects *)

Lemma round_Qeq (x x' : Q) : x == x' -> JS.round x = JS.round x'.
Proof.
  intro E. unfold JS.round. apply Qfloor_comp. rewrite E. reflexivity.
Qed.

(** X7: [findAspect] does not depend on the order of its two longitudes. *)
Theorem findAspect_symmetric (lon1 lon2 : Q) :
  Natal.findAspect lon1 lon2 = Natal.findAspect lon2 lon1.
Proof.
  unfold Natal.findAspect, JS.abs.
  rewrite (Qabs_Qminus lon1 lon2). reflexivity.
Qed.



(** * More on the synastry *)

(** The three classes of aspect of the table. *)
Lemma findAspect_class (lon1 lon2 : Q) (h : Natal.Aspect) :
  Natal.findAspect lon1 lon2 = Some h ->
  aspect_class h.
Proof.
  intro F. rewrite findAspect_separation in F.
  pose proof (findAspect_loop_first Natal.ASPECTS (shortestSeparation lon1 lon2)) as H.
  rewrite F in H. destruct H as (pre & n & d & post & E & _ & _ & ->).
  assert (I : In (n, d) Natal.ASPECTS) by (rewrite E; apply in_elt).
  unfold aspect_class. cbn [Natal.aspect Natal.a_nature reported].
  simpl in I.
  destruct I as [I|[I|[I|[I|[I|[]]]]]]; injection I as <- <-; reflexivity.
Qed.

Lemma crossAspects_class (chart1 chart2 : Natal.NatalChart) :
  Forall (fun x => aspect_class (Natal.cross x)) (Natal.crossAspects chart1 chart2).
Proof.
  unfold Natal.crossAspects.
  apply Forall_flat_map, Forall_forall. intros p1 _.
  apply Forall_flat_map, Forall_forall. intros p2 _.
  destruct (Natal.findAspect (Natal.cp_longitude p1) (Natal.cp_longitude p2))
    as [a|] eqn:F; constructor; [|constructor].
  cbn [Natal.cross]. exact (findAspect_class _ _ _ F).
Qed.

(** Every aspect counts in exactly one of the three classes. *)
Lemma class_counts (xs : list Natal.CrossAspect) :
  Forall (fun x => aspect_class (Natal.cross x)) xs ->
  (List.length (filter (fun a => String.eqb (Natal.a_nature (Natal.cross a)) "harmonious") xs)
   + List.length (filter (fun a => String.eqb (Natal.a_nature (Natal.cross a)) "challenging") xs)
   + List.length (filter (fun a => String.eqb (Natal.aspect (Natal.cross a)) "conjunction") xs)
   = List.length xs)%nat.
Proof.
  induction 1 as [|x xs Hx _ IH]; [reflexivity|].
  cbn [filter]. unfold aspect_class in Hx.
  destruct (String.eqb (Natal.a_nature (Natal.cross x)) "harmonious");
    destruct (String.eqb (Natal.a_nature (Natal.cross x)) "challenging");
    destruct (String.eqb (Natal.aspect (Natal.cross x)) "conjunction");
    try discriminate Hx; cbn [List.length]; lia.
Qed.

Lemma flat_map_length_le {A B : Type} (f : A -> list B) (k : nat) (l : list A) :
  (forall x, List.length (f x) <= k)%nat ->
  (List.length (flat_map f l) <= List.length l * k)%nat.
Proof.
  intro H. induction l as [|x l IH]; cbn [flat_map List.length].
  - lia.
  - rewrite length_app. specialize (H x). lia.
Qed.

Lemma crossAspects_length (chart1 chart2 : Natal.NatalChart) :
  (List.length (Natal.crossAspects chart1 chart2)
   <= List.length (Natal.planets chart1) * List.length (Natal.planets chart2))%nat.
Proof.
  unfold Natal.crossAspects.
  apply flat_map_length_le. intro p1.
  rewrite <- (Nat.mul_1_r (List.length (Natal.planets chart2))).
  apply flat_map_length_le. intro p2.
  destruct (Natal.findAspect (Natal.cp_longitude p1) (Natal.cp_longitude p2));
    cbn [List.length]; lia.
Qed.

(** X9: in the summary of a synastry every cross-aspect is counted in
    exactly one of the classes harmonious, challenging and conjunction,
    there are at most as many cross-aspects as pairs of planets, and the
    compatibility index lies between 0 and 100. *)
Theorem synastry_summary_bounds (chart1 chart2 : Natal.NatalChart) :
  let s := Natal.calculateSynastry chart1 chart2 in
  (Natal.harmonious_aspects s + Natal.challenging_aspects s + Natal.conjunctions s
   = Natal.total_aspects s)%nat /\
  (Natal.total_aspects s
   <= List.length (Natal.planets chart1) * List.length (Natal.planets chart2))%nat /\
  (0 <= Natal.compatibility_index s <= 100)%Z.
Proof.
  intro s. subst s.
  unfold Natal.calculateSynastry, Natal.synastry_summary.
  cbn [Natal.harmonious_aspects Natal.challenging_aspects Natal.conjunctions
       Natal.total_aspects Natal.compatibility_index].
  pose proof (class_counts _ (crossAspects_class chart1 chart2)) as C.
  pose proof (crossAspects_length chart1 chart2) as B.
  set (xs := Natal.crossAspects chart1 chart2) in *.
  set (h := List.length (filter (fun a => String.eqb (Natal.a_nature (Natal.cross a)) "harmonious") xs)) in *.
  set (g := List.length (filter (fun a => String.eqb (Natal.a_nature (Natal.cross a)) "challenging") xs)) in *.
  set (c := List.length (filter (fun a => String.eqb (Natal.aspect (Natal.cross a)) "conjunction") xs)) in *.
  set (n := List.length xs) in *.
  clearbody h g c n. clear xs.
  split; [exact C|]. split; [exact B|].
  assert (Pn : 0 < inject_Z (Z.of_nat (Natal.or_one n))).
  { change 0 with (inject_Z 0). rewrite <- Zlt_Qlt. destruct n; simpl; lia. }
  assert (Hh : 0 <= inject_Z (Z.of_nat h)).
  { change 0 with (inject_Z 0). rewrite <- Zle_Qle. lia. }
  assert (Hc : 0 <= inject_Z (Z.of_nat c)).
  { change 0 with (inject_Z 0). rewrite <- Zle_Qle. lia. }
  assert (Hs : inject_Z (Z.of_nat h) + inject_Z (Z.of_nat c)
               <= inject_Z (Z.of_nat (Natal.or_one n))).
  { rewrite <- inject_Z_plus, <- Zle_Qle. destruct n; simpl; lia. }
  set (q := (inject_Z (Z.of_nat h) + inject_Z (Z.of_nat c) * 0.5)
            / inject_Z (Z.of_nat (Natal.or_one n))).
  assert (Q0 : 0 <= q) by (unfold q; apply Qle_shift_div_l; lra).
  assert (Q1 : q <= 1) by (unfold q; apply Qle_shift_div_r; lra).
  unfold JS.round. split.
  - apply floor_lower. change (inject_Z 0) with 0. lra.
  - apply floor_upper. change (inject_Z 100) with 100. lra.
Qed.

(** * Julian days at any time of day *)

(** The Julian day of a date at the hour [h] is a whole number less one
    half, plus the fraction of the day. *)
Lemma toJD_hours (y m d : Z) :
  exists N : Z, forall h : Q, Natal.toJD y m d h == inject_Z N - 0.5 + h / 24.
Proof.
  unfold Natal.toJD.
  destruct (JS.leb m 2).
  - exists (JS.floor (365.25 * (inject_Z y - 1 + 4716))
            + JS.floor (30.6001 * (inject_Z m + 12 + 1)) + d + 2
            - JS.floor ((inject_Z y - 1) / 100)
            + JS.floor (inject_Z (JS.floor ((inject_Z y - 1) / 100)) / 4) - 1524)%Z.
    intro h. unfold Z.sub. rewrite !inject_Z_plus, !inject_Z_opp.
    change (inject_Z 1524) with 1524. change (inject_Z 2) with 2. field.
  - exists (JS.floor (365.25 * (inject_Z y + 4716))
            + JS.floor (30.6001 * (inject_Z m + 1)) + d + 2
            - JS.floor (inject_Z y / 100)
            + JS.floor (inject_Z (JS.floor (inject_Z y / 100)) / 4) - 1524)%Z.
    intro h. unfold Z.sub. rewrite !inject_Z_plus, !inject_Z_opp.
    change (inject_Z 1524) with 1524. change (inject_Z 2) with 2. field.
Qed.

Lemma floor_whole_plus (N : Z) (f : Q) :
  0 <= f -> f < 1 -> JS.floor (inject_Z N + f) = N.
Proof.
  intros L U. apply Z.le_antisymm.
  - apply floor_upper. lra.
  - apply floor_lower. lra.
Qed.

(** [fromJD] looks at the Julian day through [floor (jd + 0.5)] only. *)
Lemma fromJD_ymd_floor (jd jd' : Q) :
  JS.floor (jd + 0.5) = JS.floor (jd' + 0.5) -> fromJD_ymd jd = fromJD_ymd jd'.
Proof.
  intro H. unfold fromJD_ymd. rewrite H. reflexivity.
Qed.





(** * Sorting *)

Section SortByFacts.

Variable A : Type.
Variable key : A -> Q.

Lemma insert_by_perm (x : A) (l : list A) :
  Permutation (x :: l) (insert_by key x l).
Proof.
  induction l as [|y l IH]; cbn [insert_by].
  - apply Permutation_refl.
  - destruct (JS.leb (key x) (key y)).
    + apply Permutation_refl.
    + apply perm_trans with (y :: x :: l); [apply perm_swap|].
      apply perm_skip, IH.
Qed.

Lemma sort_by_perm (l : list A) : Permutation l (sort_by key l).
Proof.
  induction l as [|x l IH]; cbn [sort_by].
  - apply perm_nil.
  - apply perm_trans with (x :: sort_by key l); [apply perm_skip, IH|].
    apply insert_by_perm.
Qed.

Lemma insert_by_sorted (x : A) (l : list A) :
  Sorted (fun a b => key a <= key b) l ->
  Sorted (fun a b => key a <= key b) (insert_by key x l).
Proof.
  induction 1 as [|y l S IH H]; cbn [insert_by].
  - repeat constructor.
  - destruct (JS.leb (key x) (key y)) eqn:T.
    + apply leb_le in T. repeat constructor; assumption.
    + apply leb_gt in T. constructor; [exact IH|].
      destruct H as [|z l H]; cbn [insert_by].
      * constructor. lra.
      * destruct (JS.leb (key x) (key z)); constructor; [lra|exact H].
Qed.

Lemma sort_by_sorted (l : list A) :
  Sorted (fun a b => key a <= key b) (sort_by key l).
Proof.
  induction l as [|x l IH]; cbn [sort_by].
  - constructor.
  - apply insert_by_sorted, IH.
Qed.

Lemma sort_by_Forall (P : A -> Prop) (l : list A) :
  Forall P l -> Forall P (sort_by key l).
Proof.
  intro H. exact (Permutation_Forall (sort_by_perm l) H).
Qed.

End SortByFacts.

Lemma fold_left_Forall {A B : Type} (P : A -> Prop) (f : list A -> B -> list A)
    (bs : list B) :
  (forall b r, In b bs -> Forall P r -> Forall P (f r b)) ->
  forall r0 : list A, Forall P r0 -> Forall P (fold_left f bs r0).
Proof.
  induction bs as [|b bs IH]; intros H r0 H0; cbn [fold_left].
  - exact H0.
  - apply IH.
    + intros b' r Hb. apply H. right. exact Hb.
    + apply H; [left; reflexivity|exact H0].
Qed.

(** * The ingress scan *)

(** The sign index of a longitude is a multiple of 30 below it. *)
Lemma floor_div30 (n : Q) :
  30 * inject_Z (JS.floor (n / 30)) <= n /\
  n < 30 * inject_Z (JS.floor (n / 30)) + 30.
Proof.
  unfold JS.floor.
  pose proof (Qfloor_le (n / 30)) as L.
  pose proof (Qlt_floor (n / 30)) as U.
  rewrite inject_Z_plus in U. change (inject_Z 1) with 1 in U.
  assert (E : n == 30 * (n / 30)) by field.
  split; lra.
Qed.

(** A step forward by less than a sign stays in the sign or enters the
    next one. *)
Lemma sign_index_step (x y : Q) :
  0 < y - x -> y - x < 30 ->
  JS.floor (norm y / 30) = JS.floor (norm x / 30) \/
  JS.floor (norm y / 30) = ((JS.floor (norm x / 30) + 1) mod 12)%Z.
Proof.
  intros L U.
  destruct (norm_spec x) as (kx & Ex & Lx & Ux).
  destruct (norm_spec y) as (ky & Ey & Ly & Uy).
  assert (D : norm y - norm x == (y - x) - 360 * inject_Z (ky - kx)).
  { unfold Z.sub. rewrite inject_Z_plus, inject_Z_opp. rewrite Ex, Ey. ring. }
  assert (J : (0 <= ky - kx <= 1)%Z).
  { split.
    - assert (K : inject_Z (-1) < inject_Z (ky - kx)).
      { change (inject_Z (-1)) with (-(1)). lra. }
      rewrite <- Zlt_Qlt in K. lia.
    - assert (K : inject_Z (ky - kx) < inject_Z 2).
      { change (inject_Z 2) with 2. lra. }
      rewrite <- Zlt_Qlt in K. lia. }
  destruct (floor_div30 (norm x)) as [Ix Ix'].
  destruct (floor_div30 (norm y)) as [Iy Iy'].
  pose proof (signIndex_range (norm x) Lx Ux) as Rx.
  pose proof (signIndex_range (norm y) Ly Uy) as Ry.
  set (i := JS.floor (norm x / 30)) in *.
  set (j := JS.floor (norm y / 30)) in *.
  clearbody i j.
  assert (C : (ky - kx = 0 \/ ky - kx = 1)%Z) by lia.
  destruct C as [C|C]; rewrite C in D;
    [change (inject_Z 0) with 0 in D | change (inject_Z 1) with 1 in D].
  - assert (A1 : inject_Z j < inject_Z (i + 2)).
    { rewrite inject_Z_plus. change (inject_Z 2) with 2. lra. }
    assert (A2 : inject_Z i < inject_Z (j + 1)).
    { rewrite inject_Z_plus. change (inject_Z 1) with 1. lra. }
    rewrite <- Zlt_Qlt in A1, A2.
    assert (M : (j = i \/ j = i + 1)%Z) by lia.
    destruct M as [M|M]; [left; exact M|right].
    rewrite Z.mod_small by lia. exact M.
  - assert (A1 : inject_Z 10 < inject_Z i).
    { change (inject_Z 10) with 10. lra. }
    assert (A2 : inject_Z j < inject_Z 1).
    { change (inject_Z 1) with 1. lra. }
    rewrite <- Zlt_Qlt in A1, A2.
    right. assert (i = 11%Z) by lia. assert (j = 0%Z) by lia. subst. reflexivity.
Qed.

(** The signs of distinct indices have distinct names. *)
Lemma zodiac_index_inj (i j : Z) :
  (0 <= i <= 11)%Z -> (0 <= j <= 11)%Z ->
  JS.index ZODIAC i = JS.index ZODIAC j -> i = j.
Proof.
  intros Hi Hj.
  destruct (index_cases i Hi) as
    [->|[->|[->|[->|[->|[->|[->|[->|[->|[->|[->| ->]]]]]]]]]]];
    destruct (index_cases j Hj) as
    [->|[->|[->|[->|[->|[->|[->|[->|[->|[->|[->| ->]]]]]]]]]]];
    intro E; try reflexivity; discriminate E.
Qed.

Lemma zodiac_index_defined (i : Z) :
  (0 <= i <= 11)%Z -> exists s : string, JS.index ZODIAC i = Some s.
Proof.
  intro Hi.
  destruct (index_cases i Hi) as
    [->|[->|[->|[->|[->|[->|[->|[->|[->|[->|[->| ->]]]]]]]]]]];
    eexists; reflexivity.
Qed.

Section IngressInvariant.

Variable sign_name_of : Q -> option string.
Variable lonf : string -> Q -> Q.
Variables (k : string) (p : Planet) (st : Q).

Hypothesis sign_name_index :
  forall L : Q, sign_name_of L = JS.index ZODIAC (JS.floor (norm L / 30)).
Hypothesis lon_mean :
  forall jd : Q, lonf k jd = norm (j2000 p + motion p * (jd - J2000)).
Hypothesis step_forward : 0 < motion p * st.
Hypothesis step_short : motion p * st < 30.

(** The sign of the body one step later. *)
Lemma sign_one_step (jp : Q) :
  exists i : Z,
    (0 <= i <= 11)%Z /\
    sign_name_of (lonf k jp) = JS.index ZODIAC i /\
    (sign_name_of (lonf k (jp + st)) = JS.index ZODIAC i \/
     sign_name_of (lonf k (jp + st)) = JS.index ZODIAC ((i + 1) mod 12)%Z).
Proof.
  set (x := j2000 p + motion p * (jp - J2000)).
  set (y := j2000 p + motion p * (jp + st - J2000)).
  assert (L : 0 < y - x) by (unfold x, y; ring_simplify; ring_simplify in step_forward; lra).
  assert (U : y - x < 30) by (unfold x, y; ring_simplify; ring_simplify in step_short; lra).
  exists (JS.floor (norm x / 30)).
  destruct (norm_range x) as [Lx Ux].
  split; [apply signIndex_range; assumption|].
  rewrite !sign_name_index, !lon_mean. fold x y.
  assert (Nx : norm (norm x) / 30 == norm x / 30) by (rewrite norm_fixed; [reflexivity|assumption..]).
  destruct (norm_range y) as [Ly Uy].
  assert (Ny : norm (norm y) / 30 == norm y / 30) by (rewrite norm_fixed; [reflexivity|assumption..]).
  unfold JS.floor.
  rewrite (Qfloor_comp _ _ Nx), (Qfloor_comp _ _ Ny).
  split; [reflexivity|].
  destruct (sign_index_step x y L U) as [E|E]; unfold JS.floor in E; rewrite E;
    [left|right]; reflexivity.
Qed.

(** What the scan keeps true at the sample [jd]. *)
Lemma ingress_step_invariant (jd : Q) (s : option string * list IngressEvent) :
  ingress_state sign_name_of (lonf k) st jd s ->
  ingress_state sign_name_of (lonf k) st (jd + st)
    (ingress_step sign_name_of lonf k p jd s).
Proof.
  destruct s as [prev r]. intros [HF HP]. unfold ingress_step.
  split; cbn [fst snd].
  - destruct HP as [HP | (jp & -> & HP)]; cbn [fst] in HP; rewrite HP; [exact HF|].
    destruct (sign_one_step jp) as (i & Hi & E0 & E1).
    destruct (zodiac_index_defined i Hi) as (pv & Epv).
    rewrite E0, Epv.
    destruct (negb (String.eqb pv "") && sign_differs (sign_name_of (lonf k (jp + st))) pv)
      eqn:T; [|exact HF].
    apply Forall_app. split; [exact HF|]. constructor; [|constructor].
    exists i. cbn [from_sign to_sign]. split; [exact Hi|]. split; [exact Epv|].
    destruct E1 as [E1|E1]; [|exact E1].
    exfalso. apply andb_true_iff in T as [_ T].
    rewrite E1, Epv in T. cbn [sign_differs] in T.
    rewrite String.eqb_refl in T. discriminate T.
  - right. exists jd. split; reflexivity.
Qed.

Lemma for_jd_ingress (e : Q) (fuel : nat) :
  forall (jd : Q) (s : option string * list IngressEvent),
    ingress_state sign_name_of (lonf k) st jd s ->
    Forall next_sign_ingress
      (snd (for_jd fuel e st (ingress_step sign_name_of lonf k p) jd s)).
Proof.
  induction fuel as [|fuel IH]; intros jd s H; cbn [for_jd].
  - exact (proj1 H).
  - destruct (JS.ltb jd e); [|exact (proj1 H)].
    apply IH, ingress_step_invariant, H.
Qed.

End IngressInvariant.

(** The scan of one planet adds ingresses into the next sign only. *)
Lemma ingress_body_next_sign (sign_name_of : Q -> option string)
    (lonf : string -> Q -> Q) (steps : list (string * Q)) (s e : Q)
    (k : string) (p : Planet) (r : list IngressEvent) :
  (forall L : Q, sign_name_of L = JS.index ZODIAC (JS.floor (norm L / 30))) ->
  (forall jd : Q, lonf k jd = norm (j2000 p + motion p * (jd - J2000))) ->
  0 < motion p * step_of steps k -> motion p * step_of steps k < 30 ->
  Forall next_sign_ingress r ->
  Forall next_sign_ingress (ingress_body sign_name_of lonf steps s e r (k, p)).
Proof.
  intros H1 H2 H3 H4 Hr. unfold ingress_body.
  apply (for_jd_ingress sign_name_of lonf k p (step_of steps k) H1 H2 H3 H4).
  split; [exact Hr|left; reflexivity].
Qed.

Lemma natal_planets_ingress (kp : string * Planet) :
  In kp Natal.PLANETS ->
  (forall jd : Q, Natal.lon (fst kp) jd
     = norm (j2000 (snd kp) + motion (snd kp) * (jd - J2000))) /\
  0 < motion (snd kp) * step_of Natal.ingress_steps (fst kp) /\
  motion (snd kp) * step_of Natal.ingress_steps (fst kp) < 30.
Proof.
  intro H. simpl in H.
  repeat (destruct H as [<-|H]; [repeat split|]).
  contradiction.
Qed.

Lemma transits_planets_ingress (kp : string * Planet) :
  In kp Transits.PLANETS ->
  (forall jd : Q, Transits.lon (fst kp) jd
     = norm (j2000 (snd kp) + motion (snd kp) * (jd - J2000))) /\
  0 < motion (snd kp) * step_of Transits.ingress_steps (fst kp) /\
  motion (snd kp) * step_of Transits.ingress_steps (fst kp) < 30.
Proof.
  intro H. simpl in H.
  repeat (destruct H as [<-|H]; [repeat split|]).
  contradiction.
Qed.

(** X11: every ingress reported by the scan of a year, in either function,
    goes from a sign into the sign that follows it in the zodiac (Aries
    after Pisces): no body skips a sign between two samples or moves back
    into the previous one. *)
Theorem ingresses_enter_next_sign (year : Z) :
  Forall next_sign_ingress (Natal.calcIngresses year) /\
  Forall next_sign_ingress (Transits.ingresses year).
Proof.
  split.
  - unfold Natal.calcIngresses, ingress_scan.
    apply sort_by_Forall, fold_left_Forall; [|constructor].
    intros [k p] r Hkp Hr.
    destruct (natal_planets_ingress (k, p) Hkp) as (H2 & H3 & H4).
    apply ingress_body_next_sign; try assumption. reflexivity.
  - unfold Transits.ingresses, ingress_scan.
    apply sort_by_Forall, fold_left_Forall; [|constructor].
    intros [k p] r Hkp Hr.
    destruct (transits_planets_ingress (k, p) Hkp) as (H2 & H3 & H4).
    apply ingress_body_next_sign; try assumption. reflexivity.
Qed.



(** * The aspect scan *)

Lemma aspect_df_nonneg (lon1 lon2 : Q -> Q) (angle jd : Q) :
  0 <= aspect_df lon1 lon2 angle jd.
Proof. unfold aspect_df, JS.abs. apply Qabs_nonneg. Qed.

(** Rounding to two decimals keeps a number between 0 and a whole bound. *)
Lemma round2_range (x : Q) (c : Z) :
  0 <= x -> x <= inject_Z c ->
  0 <= inject_Z (JS.round (x * 100)) / 100 /\
  inject_Z (JS.round (x * 100)) / 100 <= inject_Z c.
Proof.
  intros L U.
  assert (Lo : (0 <= JS.round (x * 100))%Z).
  { unfold JS.round. apply floor_lower. change (inject_Z 0) with 0. lra. }
  assert (Hi : (JS.round (x * 100) <= c * 100)%Z).
  { unfold JS.round. apply floor_upper. rewrite inject_Z_mult.
    change (inject_Z 100) with 100. lra. }
  rewrite Zle_Qle in Lo, Hi. rewrite inject_Z_mult in Hi.
  change (inject_Z 100) with 100 in Hi. change (inject_Z 0) with 0 in Lo.
  split.
  - apply Qle_shift_div_l; lra.
  - apply Qle_shift_div_r; lra.
Qed.

Section AspectBounds.

Variable Pos : Type.
Variable pos_of : Q -> Pos.
Variable lonf : string -> Q -> Q.
Variables n sym name1 name2 k1 k2 : string.
Variables (angle : Q) (c : Z).

Hypothesis corridor_small : inject_Z c < 999.

Let step := aspect_step Pos pos_of lonf n sym name1 name2 k1 k2 angle (inject_Z c).

Lemma aspect_step_bounds (P : AspectEvent Pos -> Prop) (jd : Q)
    (s : AspectState Pos) :
  (forall bj bd : Q, 0 <= bd -> bd <= inject_Z c ->
     P (aspect_event Pos pos_of lonf n sym name1 name2 k1 k2 bj bd)) ->
  aspect_state (inject_Z c) P s -> aspect_state (inject_Z c) P (step jd s).
Proof.
  intros HP H. pose proof H as (HF & HT & HN). unfold step, aspect_step.
  pose proof (aspect_df_nonneg (lonf k1) (lonf k2) angle jd) as D0.
  set (df := aspect_df (lonf k1) (lonf k2) angle jd) in *. clearbody df.
  destruct (JS.leb df (inject_Z c)) eqn:T.
  - apply leb_le in T.
    destruct (JS.ltb df (bD s)) eqn:B.
    + split; [exact HF|]. split; cbn [io bD].
      * intros _. split; assumption.
      * intro X. discriminate X.
    + apply ltb_ge in B. split; [exact HF|]. split; cbn [io bD].
      * intros _. destruct (io s) eqn:I; [apply HT; reflexivity|].
        specialize (HN eq_refl). lra.
      * intro X. discriminate X.
  - destruct (io s && JS.truthy (bJd s)) eqn:E; [|exact H].
    apply andb_true_iff in E as [I _].
    destruct (bJd s) as [bj|]; [|exact H].
    destruct (HT I) as [B0 B1].
    split; cbn [ar io bD].
    + apply Forall_app. split; [exact HF|]. constructor; [|constructor].
      apply HP; assumption.
    + split; [intro X; discriminate X|intros _; exact corridor_small].
Qed.

Lemma aspect_loop_bounds (P : AspectEvent Pos -> Prop) (s e st : Q)
    (r : list (AspectEvent Pos)) :
  (forall bj bd : Q, 0 <= bd -> bd <= inject_Z c ->
     P (aspect_event Pos pos_of lonf n sym name1 name2 k1 k2 bj bd)) ->
  Forall P r ->
  Forall P (aspect_loop Pos pos_of lonf n sym name1 name2 k1 k2 angle
              (inject_Z c) s e st r).
Proof.
  intros HP Hr. unfold aspect_loop. fold step.
  assert (G : forall fuel jd st0,
             aspect_state (inject_Z c) P st0 ->
             aspect_state (inject_Z c) P (for_jd fuel e st step jd st0)).
  { induction fuel as [|fuel IH]; intros jd st0 H; cbn [for_jd].
    - exact H.
    - destruct (JS.ltb jd e); [|exact H].
      apply IH, aspect_step_bounds; assumption. }
  apply G. split; [exact Hr|]. split; cbn [io bD].
  - intro X. discriminate X.
  - intros _. exact corridor_small.
Qed.

End AspectBounds.

(** The exactness of an event is within the orb of 8 degrees, and within
    3 degrees when the first body is the Sun. *)
Lemma aspect_event_within (Pos : Type) (pos_of : Q -> Pos)
    (lonf : string -> Q -> Q) (n sym name1 name2 k1 k2 : string) (c : Z)
    (bj bd : Q) :
  (c <= 8)%Z -> (name1 = "Sun" -> (c <= 3)%Z) ->
  0 <= bd -> bd <= inject_Z c ->
  exactness_within (aspect_event Pos pos_of lonf n sym name1 name2 k1 k2 bj bd).
Proof.
  intros C8 C3 L U. unfold exactness_within, aspect_event.
  cbn [exactness body1].
  destruct (round2_range bd c L U) as [R0 R1].
  split; [exact R0|]. split.
  - apply Qle_trans with (inject_Z c); [exact R1|].
    change 8 with (inject_Z 8). rewrite <- Zle_Qle. exact C8.
  - intro S. apply Qle_trans with (inject_Z c); [exact R1|].
    change 3 with (inject_Z 3). rewrite <- Zle_Qle. exact (C3 S).
Qed.

Section AspectScanBounds.

Variable Pos : Type.
Variable pos_of : Q -> Pos.
Variable lonf : string -> Q -> Q.
Variable planet_name : string -> string.
Variable outer : list string.
Variable entries : list (string * (Q * Q * string)).

(** The orbs of the table are whole numbers of degrees up to 8, and no
    outer planet is called Sun. *)
Hypothesis orbs_whole :
  Forall (fun na => exists c : Z, snd (fst (snd na)) = inject_Z c /\ (c <= 8)%Z)
    entries.
Hypothesis outer_not_sun :
  Forall (fun k => planet_name k <> "Sun") outer.

Lemma pairs_fst {A : Type} (l : list A) (x y : A) :
  In (x, y) (pairs l) -> In x l.
Proof.
  induction l as [|z l IH]; cbn [pairs]; [intros []|].
  intro H. apply in_app_or in H as [H|H].
  - apply in_map_iff in H as (w & E & _). injection E as <- _. left. reflexivity.
  - right. apply IH, H.
Qed.

Lemma outer_aspects_within (s e : Q) (r : list (AspectEvent Pos)) :
  Forall exactness_within r ->
  Forall exactness_within
    (outer_aspects Pos pos_of lonf planet_name outer entries s e r).
Proof.
  intro Hr. unfold outer_aspects.
  apply fold_left_Forall; [|exact Hr].
  intros [ki kj] r1 Hij Hr1.
  apply fold_left_Forall; [|exact Hr1].
  intros [nn [[ang orb] sy]] r2 Hna Hr2.
  rewrite Forall_forall in orbs_whole.
  destruct (orbs_whole _ Hna) as (c & Ec & C8). cbn [fst snd] in Ec. subst orb.
  apply aspect_loop_bounds; [|  |exact Hr2].
  - apply Qle_lt_trans with 8; [|reflexivity].
    change 8 with (inject_Z 8). rewrite <- Zle_Qle. exact C8.
  - intros bj bd L U. apply aspect_event_within with (c := c); try assumption.
    intro S. exfalso. cbn [fst] in S.
    rewrite Forall_forall in outer_not_sun.
    exact (outer_not_sun ki (pairs_fst _ _ _ Hij) S).
Qed.

Lemma sun_aspects_within (s e : Q) (r : list (AspectEvent Pos)) :
  Forall exactness_within r ->
  Forall exactness_within
    (sun_aspects Pos pos_of lonf planet_name outer entries s e r).
Proof.
  intro Hr. unfold sun_aspects.
  apply fold_left_Forall; [|exact Hr].
  intros p r1 Hp Hr1.
  apply fold_left_Forall; [|exact Hr1].
  intros [nn [[ang orb] sy]] r2 Hna Hr2.
  destruct (negb (hard_aspect nn)); [exact Hr2|].
  apply (aspect_loop_bounds Pos pos_of lonf nn sy "Sun" (planet_name p) "sun" p
           ang 3); [reflexivity| |exact Hr2].
  intros bj bd L U. apply aspect_event_within with (c := 3%Z); try assumption; lia.
Qed.

Lemma aspect_scan_within (s e : Q) :
  Forall exactness_within
    (aspect_scan Pos pos_of lonf planet_name outer entries s e).
Proof.
  unfold aspect_scan.
  apply sort_by_Forall, sun_aspects_within, outer_aspects_within. constructor.
Qed.

End AspectScanBounds.

(** X13: every aspect event of the scan of a year, in either function, has
    an exactness between 0 and 8 degrees, and between 0 and 3 degrees when
    it is an aspect of the Sun; the events come in ascending order of their
    Julian day. *)
Theorem transit_aspects_within_orb (year : Z) :
  Forall exactness_within (Natal.calcTransitAspects year) /\
  Forall exactness_within (Transits.aspects year) /\
  Sorted (fun a b => asp_jd a <= asp_jd b) (Natal.calcTransitAspects year) /\
  Sorted (fun a b => asp_jd a <= asp_jd b) (Transits.aspects year).
Proof.
  split; [|split; [|split; apply sort_by_sorted]].
  - unfold Natal.calcTransitAspects. apply aspect_scan_within.
    + repeat constructor; cbn [fst snd].
      * exists 8%Z. split; [reflexivity|lia].
      * exists 4%Z. split; [reflexivity|lia].
      * exists 6%Z. split; [reflexivity|lia].
      * exists 6%Z. split; [reflexivity|lia].
      * exists 8%Z. split; [reflexivity|lia].
    + repeat constructor; discriminate.
  - unfold Transits.aspects. apply aspect_scan_within.
    + repeat constructor; cbn [fst snd].
      * exists 8%Z. split; [reflexivity|lia].
      * exists 6%Z. split; [reflexivity|lia].
      * exists 8%Z. split; [reflexivity|lia].
      * exists 8%Z. split; [reflexivity|lia].
      * exists 8%Z. split; [reflexivity|lia].
    + repeat constructor; discriminate.
Qed.

Section AspectRun.

Variable Pos : Type.
Variable pos_of : Q -> Pos.
Variable lonf : string -> Q -> Q.
Variables n sym name1 name2 k1 k2 : string.
Variables angle corridor : Q.

Hypothesis corridor_small : corridor < 999.

Let step := aspect_step Pos pos_of lonf n sym name1 name2 k1 k2 angle corridor.
Let df := aspect_df (lonf k1) (lonf k2) angle.

(** Samples in orb never add an event. *)
Lemma in_orb_silent (l : list Q) :
  forall s : AspectState Pos,
    Forall (fun j => df j <= corridor) l ->
    ar (fold_left (fun a j => step j a) l s) = ar s.
Proof.
  induction l as [|j l IH]; intros s H; cbn [fold_left]; [reflexivity|].
  inversion H as [|? ? Hj Hl]; subst.
  rewrite (IH _ Hl). unfold step, aspect_step. fold df.
  apply leb_le in Hj. rewrite Hj.
  destruct (JS.ltb (df j) (bD s)); reflexivity.
Qed.

(** Samples out of orb change nothing when no run is open. *)
Lemma out_of_orb_idle (l : list Q) :
  forall s : AspectState Pos,
    io s = false ->
    Forall (fun j => corridor < df j) l ->
    fold_left (fun a j => step j a) l s = s.
Proof.
  induction l as [|j l IH]; intros s I H; cbn [fold_left]; [reflexivity|].
  inversion H as [|? ? Hj Hl]; subst.
  assert (E : step j s = s).
  { unfold step, aspect_step. fold df.
    apply leb_gt in Hj. rewrite Hj, I. reflexivity. }
  rewrite E. apply IH; assumption.
Qed.

(** Along a run in orb the scan keeps the first sample of least
    deviation. *)
Lemma in_orb_best (l : list Q) :
  forall (s : AspectState Pos) (jb : Q),
    bJd s = Some jb -> bD s = df jb ->
    Forall (fun j => df j <= corridor) l ->
    exists jb' : Q,
      fold_left (fun a j => step j a) l s =
        {| io := match l with [] => io s | _ => true end;
           bJd := Some jb'; bD := df jb'; ar := ar s |} /\
      (jb' = jb \/ In jb' l) /\
      df jb' <= df jb /\
      Forall (fun j => df jb' <= df j) l.
Proof.
  induction l as [|j l IH]; intros s jb HJ HD H; cbn [fold_left].
  - exists jb. split; [destruct s; cbn in *; subst; reflexivity|].
    split; [left; reflexivity|]. split; [lra|constructor].
  - inversion H as [|? ? Hj Hl]; subst.
    unfold step at 2. unfold aspect_step. fold df.
    apply leb_le in Hj. rewrite Hj.
    destruct (JS.ltb (df j) (bD s)) eqn:B.
    + apply ltb_lt in B. rewrite HD in B.
      destruct (IH {| io := true; bJd := Some j; bD := df j; ar := ar s |} j
                  eq_refl eq_refl Hl) as (jb' & E & M & L & F).
      exists jb'. rewrite E. cbn [io ar].
      split; [destruct l; reflexivity|].
      split; [right; destruct M as [->|M]; [left; reflexivity|right; exact M]|].
      split; [lra|]. constructor; [exact L|exact F].
    + apply ltb_ge in B. rewrite HD in B.
      destruct (IH {| io := true; bJd := bJd s; bD := bD s; ar := ar s |} jb
                  HJ HD Hl) as (jb' & E & M & L & F).
      exists jb'. rewrite E. cbn [io ar].
      split; [destruct l; reflexivity|].
      split; [destruct M as [->|M]; [left; reflexivity|right; right; exact M]|].
      split; [exact L|]. constructor; [lra|exact F].
Qed.

(** A run in orb that starts the scan and ends inside the range. *)
Lemma scan_one_run (r : list (AspectEvent Pos)) (j0 out : Q) (run rest : list Q) :
  Forall (fun j => df j <= corridor) (j0 :: run) ->
  corridor < df out ->
  Forall (fun j => corridor < df j) rest ->
  Forall (fun j => ~ j == 0) (j0 :: run) ->
  exists jb : Q,
    In jb (j0 :: run) /\
    Forall (fun j => df jb <= df j) (j0 :: run) /\
    ar (fold_left (fun a j => step j a) ((j0 :: run) ++ out :: rest)%list
          {| io := false; bJd := None; bD := 999; ar := r |}) =
    (r ++ [aspect_event Pos pos_of lonf n sym name1 name2 k1 k2 jb (df jb)])%list.
Proof.
  intros Hin Hout Hrest Hnz.
  inversion Hin as [|? ? H0 Hrun]; subst.
  rewrite fold_left_app. cbn [fold_left app].
  assert (E0 : step j0 {| io := false; bJd := None; bD := 999; ar := r |}
               = {| io := true; bJd := Some j0; bD := df j0; ar := r |}).
  { unfold step, aspect_step. fold df. cbn [bD].
    pose proof H0 as H0'. apply leb_le in H0'. rewrite H0'.
    assert (B : JS.ltb (df j0) 999 = true) by (apply ltb_lt; lra).
    rewrite B. reflexivity. }
  rewrite E0.
  destruct (in_orb_best run {| io := true; bJd := Some j0; bD := df j0; ar := r |}
              j0 eq_refl eq_refl Hrun) as (jb & E & M & L & F).
  rewrite E. cbn [io ar].
  assert (I : In jb (j0 :: run)).
  { destruct M as [->|M]; [left; reflexivity|right; exact M]. }
  exists jb. split; [exact I|]. split; [constructor; [exact L|exact F]|].
  assert (Z : ~ jb == 0) by (rewrite Forall_forall in Hnz; exact (Hnz jb I)).
  assert (E1 : step out
                 {| io := match run with [] => true | _ => true end;
                    bJd := Some jb; bD := df jb; ar := r |}
               = {| io := false; bJd := None; bD := 999;
                    ar := (r ++ [aspect_event Pos pos_of lonf n sym name1 name2
                                   k1 k2 jb (df jb)])%list |}).
  { unfold step, aspect_step. fold df. cbn [io bJd bD ar].
    pose proof Hout as Hout'. apply leb_gt in Hout'. rewrite Hout'.
    assert (T : Qeq_bool jb 0 = false).
    { destruct (Qeq_bool jb 0) eqn:T; [|reflexivity].
      apply Qeq_bool_iff in T. contradiction. }
    cbn [JS.truthy]. rewrite T. destruct run; reflexivity. }
  rewrite E1, out_of_orb_idle; [reflexivity|reflexivity|exact Hrest].
Qed.

End AspectRun.




(** * The moon phases of a year *)

(** The exactness reported for an elongation is the size of the error of
    the bisection. *)
Lemma phase_exactness_small (angle target : Q) :
  0 <= angle -> angle < 360 -> 0 <= target -> target < 360 ->
  Qabs (Natal.phase_error_of angle target) < 0.01 ->
  0 <= Natal.phase_exactness angle target /\
  Natal.phase_exactness angle target < 0.01.
Proof.
  intros La Ua Lt Ut H.
  apply Qabs_Qlt_condition in H.
  unfold Natal.phase_exactness, JS.abs.
  pose proof (Qabs_nonneg (angle - target)) as P.
  destruct (Qeq_bool target 0) eqn:T.
  - rewrite (phase_error_of_new _ _ T) in H.
    apply Qeq_bool_iff in T. cbn [andb].
    destruct (JS.ltb 180 angle) eqn:B;
      [apply ltb_lt in B | apply ltb_ge in B].
    + assert (E : Qabs (angle - target) == angle - target)
        by (apply Qabs_pos; lra).
      assert (G : JS.ltb 180 (Qabs (angle - target)) = true)
        by (apply ltb_lt; lra).
      rewrite G. lra.
    + assert (E : Qabs (angle - target) == angle - target)
        by (apply Qabs_pos; lra).
      assert (G : JS.ltb 180 (Qabs (angle - target)) = false)
        by (apply ltb_ge; lra).
      rewrite G. lra.
  - rewrite (phase_error_of_other _ _ T) in H. cbn [andb].
    split; [exact P|]. apply Qabs_Qlt_condition. exact H.
Qed.

(** Rounding to four decimals keeps a number of [0, 0.01). *)
Lemma round4_small (x : Q) :
  0 <= x -> x < 0.01 ->
  0 <= inject_Z (JS.round (x * 10000)) / 10000 /\
  inject_Z (JS.round (x * 10000)) / 10000 <= 0.01.
Proof.
  intros L U.
  assert (Lo : (0 <= JS.round (x * 10000))%Z).
  { unfold JS.round. apply floor_lower. change (inject_Z 0) with 0. lra. }
  assert (Hi : (JS.round (x * 10000) <= 100)%Z).
  { unfold JS.round. apply floor_upper. change (inject_Z 100) with 100. lra. }
  rewrite Zle_Qle in Lo, Hi.
  change (inject_Z 100) with 100 in Hi. change (inject_Z 0) with 0 in Lo.
  split.
  - apply Qle_shift_div_l; lra.
  - apply Qle_shift_div_r; lra.
Qed.

Lemma moon_target_range (phase : string) (target : Q) :
  In (phase, target) Natal.MOON_PHASE_ANGLES -> 0 <= target /\ target < 360.
Proof.
  intro H. simpl in H.
  destruct H as [H|[H|[H|[H|[]]]]]; injection H as _ <-; split;
    solve [discriminate | reflexivity].
Qed.

(** The event of a crossing detected between the samples [jp] and
    [jp + 0.5]. *)
Lemma moon_phase_event_exact (phase : string) (target jp : Q) :
  In (phase, target) Natal.MOON_PHASE_ANGLES ->
  Natal.detectPhaseCrossing
    (Natal.getSunMoonAngle jp) (Natal.getSunMoonAngle (jp + 0.5)) target = true ->
  exact_phase (Natal.moon_phase_event phase target (jp + 0.5)).
Proof.
  intros HIn HX.
  destruct (phase_error_linear jp (jp + 0.5) target phase HIn
              ltac:(reflexivity) HX) as (c & Hc & Hc' & Hl).
  destruct (moon_target_range phase target HIn) as [T0 T1].
  unfold elongation_rate in Hc'.
  destruct (bisect_converges jp (jp + 0.5) target c Hl 9 50 0
              (jp + 0.5 - 0.5) (jp + 0.5))
    as (R1 & R2 & R3 & R4); unfold elongation_rate; try lra; try lia.
  - apply Qle_lt_trans with (12.1904 * 0.5); [lra|reflexivity].
  - unfold exact_phase, Natal.moon_phase_event.
    cbn [Natal.phase Natal.exactness_degrees].
    split; [exists target; exact HIn|].
    unfold Natal.findExactPhaseTime, Natal.findExactPhaseTime_rounds.
    set (x := fst (Natal.bisect 50 0 (jp + 0.5 - 0.5) (jp + 0.5) target)) in *.
    clearbody x.
    destruct (getSunMoonAngle_spec x) as (_ & _ & L0 & U0).
    unfold Natal.phase_error, Natal.tolerance in R3.
    destruct (phase_exactness_small _ _ L0 U0 T0 T1 R3) as [E0 E1].
    apply round4_small; assumption.
Qed.

(** The loop over the four targets at one sample. *)
Lemma moon_targets_exact (jp : Q) (entries : list (string * Q)) :
  (forall pt, In pt entries -> In pt Natal.MOON_PHASE_ANGLES) ->
  forall phases : list Natal.MoonPhase,
    Forall exact_phase phases ->
    Forall exact_phase
      (fold_left
         (fun phases (pt : string * Q) =>
            let '(phaseName, targetAngle) := pt in
            if Natal.detectPhaseCrossing (Natal.getSunMoonAngle jp)
                 (Natal.getSunMoonAngle (jp + 0.5)) targetAngle
            then (phases ++ [Natal.moon_phase_event phaseName targetAngle (jp + 0.5)])%list
            else phases)
         entries phases).
Proof.
  induction entries as [|[ph tg] entries IH]; intros Hsub phases HF; cbn [fold_left].
  - exact HF.
  - apply IH; [intros pt Hpt; apply Hsub; right; exact Hpt|].
    destruct (Natal.detectPhaseCrossing (Natal.getSunMoonAngle jp)
                (Natal.getSunMoonAngle (jp + 0.5)) tg) eqn:X; [|exact HF].
    apply Forall_app. split; [exact HF|]. constructor; [|constructor].
    apply moon_phase_event_exact; [apply Hsub; left; reflexivity|exact X].
Qed.

Lemma moon_step_invariant (jd : Q) (s : Q * list Natal.MoonPhase) :
  moon_state jd s -> moon_state (jd + 0.5) (Natal.moon_step jd s).
Proof.
  destruct s as [prevAngle phases]. intros (HF & jp & -> & HP).
  cbn [fst snd] in HF, HP. subst prevAngle.
  unfold Natal.moon_step. split; cbn [fst snd].
  - apply moon_targets_exact; [intros pt H; exact H|exact HF].
  - exists (jp + 0.5). split; reflexivity.
Qed.

Lemma for_jd_moon (e : Q) (fuel : nat) :
  forall (jd : Q) (s : Q * list Natal.MoonPhase),
    moon_state jd s ->
    Forall exact_phase (snd (for_jd fuel e 0.5 Natal.moon_step jd s)).
Proof.
  induction fuel as [|fuel IH]; intros jd s H; cbn [for_jd].
  - exact (proj1 H).
  - destruct (JS.ltb jd e); [|exact (proj1 H)].
    apply IH, moon_step_invariant, H.
Qed.


(** * Chart angles *)

Section ChartAngles.

Local Open Scope R_scope.

(** [a % 360] has the sign of [a] and is less than a turn in size. *)
Lemma Chart_rem_range (a : R) :
  (0 <= a -> 0 <= Chart.rem a 360 < 360) /\
  (a < 0 -> -360 < Chart.rem a 360 <= 0).
Proof.
  unfold Chart.rem, Chart.trunc.
  assert (E : a = 360 * (a / 360)) by field.
  split; intro H.
  - destruct (Rle_dec 0 (a / 360)) as [_|N]; [|exfalso; apply N; lra].
    pose proof (Zfloor_bound (a / 360)). lra.
  - destruct (Rle_dec 0 (a / 360)) as [P|_]; [lra|].
    pose proof (Zceil_bound (a / 360)). lra.
Qed.

Lemma Chart_norm_range (a : R) : 0 <= Chart.norm a < 360.
Proof.
  unfold Chart.norm.
  destruct (Chart_rem_range a) as [P N].
  destruct (Rlt_dec (Chart.rem a 360) 0) as [L|L];
    destruct (Rle_dec 0 a) as [A|A].
  - specialize (P A). lra.
  - assert (A' : a < 0) by lra. specialize (N A'). lra.
  - specialize (P A). lra.
  - assert (A' : a < 0) by lra. specialize (N A'). lra.
Qed.

(** The arc tangent in degrees lies strictly between -90 and 90. *)
Lemma radToDeg_atan_range (x : R) : -90 < Chart.radToDeg (atan x) < 90.
Proof.
  unfold Chart.radToDeg.
  pose proof (atan_bound x) as [L U].
  pose proof PI_RGT_0 as P.
  set (t := atan x) in *. clearbody t.
  assert (E : t * 180 / PI = (t / PI) * 180) by (field; lra).
  rewrite E.
  assert (A : -1 / 2 < t / PI).
  { apply Rmult_lt_reg_r with PI; [exact P|].
    replace (t / PI * PI) with t by (field; lra). lra. }
  assert (B : t / PI < 1 / 2).
  { apply Rmult_lt_reg_r with PI; [exact P|].
    replace (t / PI * PI) with t by (field; lra). lra. }
  lra.
Qed.

End ChartAngles.




(** * The phase of the Moon at an instant *)

Lemma illumination_range (angle : R) :
  (0 <= Chart.illumination_of angle <= 100)%Z.
Proof.
  unfold Chart.illumination_of, Chart.round.
  pose proof (COS_bound (Chart.degToRad angle)) as [L U].
  set (x := cos (Chart.degToRad angle)) in *. clearbody x.
  split.
  - apply Zfloor_lub. simpl. lra.
  - pose proof (Zfloor_bound ((1 - x) / 2 * 100 + 0.5)) as [B _].
    assert (K : (IZR (Zfloor ((1 - x) / 2 * 100 + 0.5)) < IZR 101)%R) by (simpl; lra).
    apply lt_IZR in K. lia.
Qed.

Lemma phase_of_angle_named (angle : Q) :
  exists nm em : string,
    lookup (phase_of_angle angle) phaseNames = Some nm /\
    lookup (phase_of_angle angle) phaseEmojis = Some em.
Proof.
  unfold phase_of_angle.
  destruct (JS.ltb angle 22.5 || JS.leb 337.5 angle);
    [eexists; eexists; split; reflexivity|].
  destruct (JS.ltb angle 67.5); [eexists; eexists; split; reflexivity|].
  destruct (JS.ltb angle 112.5); [eexists; eexists; split; reflexivity|].
  destruct (JS.ltb angle 157.5); [eexists; eexists; split; reflexivity|].
  destruct (JS.ltb angle 202.5); [eexists; eexists; split; reflexivity|].
  destruct (JS.ltb angle 247.5); [eexists; eexists; split; reflexivity|].
  destruct (JS.ltb angle 292.5); eexists; eexists; split; reflexivity.
Qed.

Lemma age_range (angle : Q) :
  0 <= angle -> angle < 360 ->
  0 <= inject_Z (JS.round (angle / 360 * 29.53 * 10)) / 10 /\
  inject_Z (JS.round (angle / 360 * 29.53 * 10)) / 10 <= 29.5.
Proof.
  intros L U.
  assert (E : angle == 360 * (angle / 360)) by field.
  set (u := angle / 360) in *. clearbody u.
  assert (Lo : (0 <= JS.round (u * 29.53 * 10))%Z).
  { unfold JS.round. apply floor_lower. change (inject_Z 0) with 0. lra. }
  assert (Hi : (JS.round (u * 29.53 * 10) <= 295)%Z).
  { unfold JS.round. apply floor_upper. change (inject_Z 295) with 295. lra. }
  rewrite Zle_Qle in Lo, Hi.
  change (inject_Z 295) with 295 in Hi. change (inject_Z 0) with 0 in Lo.
  split.
  - apply Qle_shift_div_l; lra.
  - apply Qle_shift_div_r; lra.
Qed.


(** * Signs, once more *)

Lemma round_error (y : Q) :
  - (1 # 2) < inject_Z (JS.round y) - y /\ inject_Z (JS.round y) - y <= 1 # 2.
Proof.
  unfold JS.round.
  pose proof (Qfloor_le (y + 0.5)) as L.
  pose proof (Qlt_floor (y + 0.5)) as U.
  rewrite inject_Z_plus in U. change (inject_Z 1) with 1 in U.
  split; lra.
Qed.


(** * One phase per step *)

(** Between two elongations half a day apart at most one target is
    crossed. *)
Lemma one_crossing (prev curr t1 t2 : Q) (p1 p2 : string) :
  0 <= prev -> prev < 360 -> 0 <= curr -> curr < 360 ->
  (curr == prev + elongation_rate * 0.5 \/
   curr == prev + elongation_rate * 0.5 - 360) ->
  In (p1, t1) Natal.MOON_PHASE_ANGLES ->
  In (p2, t2) Natal.MOON_PHASE_ANGLES ->
  Natal.detectPhaseCrossing prev curr t1 = true ->
  Natal.detectPhaseCrossing prev curr t2 = true ->
  (p1, t1) = (p2, t2).
Proof.
  intros L0 U0 L1 U1 A I1 I2 X1 X2.
  unfold elongation_rate in A.
  simpl in I1, I2.
  destruct I1 as [I1|[I1|[I1|[I1|[]]]]]; injection I1 as <- <-;
    destruct I2 as [I2|[I2|[I2|[I2|[]]]]]; injection I2 as <- <-;
    try reflexivity; exfalso;
    match type of X1 with
    | Natal.detectPhaseCrossing _ _ ?t = true =>
        first [rewrite (detectPhaseCrossing_new prev curr t eq_refl) in X1
              |rewrite (detectPhaseCrossing_other prev curr t eq_refl) in X1]
    end;
    match type of X2 with
    | Natal.detectPhaseCrossing _ _ ?t = true =>
        first [rewrite (detectPhaseCrossing_new prev curr t eq_refl) in X2
              |rewrite (detectPhaseCrossing_other prev curr t eq_refl) in X2]
    end;
    apply andb_true_iff in X1 as [X1 X1'];
    apply andb_true_iff in X2 as [X2 X2'];
    apply ltb_lt in X1; apply ltb_lt in X2;
    first [apply ltb_lt in X1' | apply leb_le in X1'];
    first [apply ltb_lt in X2' | apply leb_le in X2'];
    destruct A; lra.
Qed.


